(** * Session multiplexer of the Resend MCP server

    A shallow embedding of the transport layer of the server:
    - [src/transports/http.ts] (the streamable-HTTP transport: [sendJsonRpcError],
      [extractBearerToken], the [/mcp] request handler and the [shutdown] closure
      of [runHttp]),
    - [src/transports/stdio.ts] ([runStdio]),
    - [src/server.ts] ([createMcpServer]) and
    - [src/index.ts] (the entry point and its signal listeners).

    JavaScript strings that reach this code are HTTP header values, which Node
    decodes as Latin-1: one character per byte, which is exactly [string].
    The registry [sessions] is a plain object literal used as a map; it is
    modelled by a [gmap] for its own properties plus the names every object
    literal inherits from [Object.prototype].  The MCP SDK and Node are external:
    what they do (the handshake that mints a session id, a channel closing, a
    signal being delivered) enters the model as events. *)

From Stdlib Require Import ZArith Ascii String.
From stdpp Require Import gmap strings list fin_maps pretty.

Local Open Scope string_scope.
Local Open Scope list_scope.
Local Open Scope Z_scope.

(** ** JavaScript string primitives used by the transport *)

Module Js.

(** [s.startsWith(p)] *)
Definition startsWith (s p : string) : bool := String.prefix p s.

(** [s.slice(n)] for [0 <= n]: the string without its first [n] characters. *)
Fixpoint slice (n : nat) (s : string) : string :=
  match n, s with
  | O, _ => s
  | S _, EmptyString => EmptyString
  | S n', String _ s' => slice n' s'
  end.

(** White space in the sense of [String.prototype.trim], restricted to the
    Latin-1 range: TAB, LF, VT, FF, CR, SPACE and NBSP. *)
Definition isWhiteSpace (c : ascii) : bool :=
  let n := nat_of_ascii c in
  ((9 <=? n) && (n <=? 13) || (n =? 32) || (n =? 160))%nat.

Fixpoint trimStart (s : string) : string :=
  match s with
  | EmptyString => EmptyString
  | String c s' => if isWhiteSpace c then trimStart s' else s
  end.

Fixpoint trimEnd (s : string) : string :=
  match s with
  | EmptyString => EmptyString
  | String c s' =>
      match trimEnd s' with
      | EmptyString => if isWhiteSpace c then EmptyString else String c EmptyString
      | r => String c r
      end
  end.

(** [s.trim()] *)
Definition trim (s : string) : string := trimEnd (trimStart s).

(** Truthiness of a string: every string but the empty one. *)
Definition truthy (s : string) : bool :=
  match s with EmptyString => false | String _ _ => true end.

(** Truthiness of a [string | undefined]. *)
Definition truthyOpt (s : option string) : bool :=
  match s with Some s => truthy s | None => false end.

End Js.

(** ** JSON values and [JSON.stringify] (the fragment the transport emits) *)

Inductive Json :=
| JNull
| JNumber (z : Z)
| JString (s : string)
| JObject (fields : Members)
with Members :=
| MNil
| MCons (key : string) (value : Json) (rest : Members).

Module JSON.

Definition dquote : string := String (ascii_of_nat 34) EmptyString.
Definition backslash : string := String (ascii_of_nat 92) EmptyString.

Definition hexDigit (n : nat) : ascii :=
  ascii_of_nat (if (n <? 10)%nat then 48 + n else 87 + n)%nat.

(** One character inside a JSON string literal. *)
Definition escapeChar (c : ascii) : string :=
  let n := nat_of_ascii c in
  if (n =? 34)%nat then backslash +:+ dquote
  else if (n =? 92)%nat then backslash +:+ backslash
  else if (n =? 8)%nat then backslash +:+ "b"
  else if (n =? 9)%nat then backslash +:+ "t"
  else if (n =? 10)%nat then backslash +:+ "n"
  else if (n =? 12)%nat then backslash +:+ "f"
  else if (n =? 13)%nat then backslash +:+ "r"
  else if (n <? 32)%nat then
    backslash +:+ "u00" +:+
      String (hexDigit (n / 16)) (String (hexDigit (n mod 16)) EmptyString)
  else String c EmptyString.

Fixpoint escape (s : string) : string :=
  match s with
  | EmptyString => EmptyString
  | String c s' => escapeChar c +:+ escape s'
  end.

Definition quote (s : string) : string := dquote +:+ escape s +:+ dquote.

Fixpoint stringify (j : Json) : string :=
  match j with
  | JNull => "null"
  | JNumber z => pretty z
  | JString s => quote s
  | JObject fields => "{" +:+ members fields +:+ "}"
  end
with members (fs : Members) : string :=
  match fs with
  | MNil => EmptyString
  | MCons k v MNil => quote k +:+ ":" +:+ stringify v
  | MCons k v rest => quote k +:+ ":" +:+ stringify v +:+ "," +:+ members rest
  end.

End JSON.

(** ** HTTP requests and responses *)

(** What the handler reads from [req]: the method, two headers, and the verdict
    of the SDK predicate [isInitializeRequest] on the parsed body. *)
Record Request := {
  method : string;
  mcpSessionId : option string;      (* req.headers['mcp-session-id'] *)
  authorization : option string;     (* req.headers.authorization *)
  bodyIsInitialize : bool;           (* isInitializeRequest(req.body) *)
}.

Record Response := {
  statusCode : Z;
  contentType : string;
  body : string;
}.

(** The JSON-RPC error envelope both error paths build. *)
Definition errorEnvelope (code : Z) (message : string) : Json :=
  JObject
    (MCons "jsonrpc" (JString "2.0")
    (MCons "error"
       (JObject (MCons "code" (JNumber code) (MCons "message" (JString message) MNil)))
    (MCons "id" JNull MNil))).

(** [sendJsonRpcError(res, statusCode, message)] *)
Definition sendJsonRpcError (status : Z) (message : string) : Response :=
  {| statusCode := status;
     contentType := "application/json";
     body := JSON.stringify (errorEnvelope (-32000) message) |}.

(** The 404 response written inline in the handler. *)
Definition sessionNotFound : Response :=
  {| statusCode := 404;
     contentType := "application/json";
     body := JSON.stringify (errorEnvelope (-32001) "Session not found") |}.

(** [extractBearerToken(req)] *)
Definition extractBearerToken (req : Request) : option string :=
  match authorization req with
  | None => None
  | Some header =>
      if negb (Js.truthy header) || negb (Js.startsWith header "Bearer ") then None
      else
        let token := Js.trim (Js.slice (String.length "Bearer ") header) in
        if Js.truthy token then Some token else None
  end.


(** ** Objects of the process *)

(** [ServerOptions] of [src/types.ts]. *)
Record ServerOptions := {
  senderEmailAddress : string;
  replierEmailAddresses : list string;
}.

(** A client handle [new Resend(apiKey)]: an object (its identity is the
    number of handles constructed before it) bound to one key. *)
Record Resend := {
  resendId : nat;
  resendApiKey : string;
}.

(** A protocol-server instance: every tool that [createMcpServer] registers is
    closed over these two values. *)
Record McpServer := {
  serverResend : Resend;
  serverOptions : ServerOptions;
}.

(** [createMcpServer(resend, options)] *)
Definition createMcpServer (resend : Resend) (options : ServerOptions) : McpServer :=
  {| serverResend := resend; serverOptions := options |}.

(** A [StreamableHTTPServerTransport] object.  [sessionId] is the SDK's field of
    that name ([None] is [undefined]); [connectedTo] is the server whose
    [connect] wired its callbacks into this transport; [handling] says that the
    create path went past [await server.connect(transport)] and invoked
    [handleRequest]; [closed] that the channel was closed. *)
Record Transport := {
  sessionId : option string;
  connectedTo : McpServer;
  handling : bool;
  closed : bool;
}.

Inductive SignalName := SIGINT | SIGTERM.

#[global] Instance SignalName_eq_dec : EqDecision SignalName.
Proof. solve_decision. Defined.

(** The two kinds of function the program passes to [process.on]. *)
Inductive Listener :=
| ExitWith (code : Z)        (* () => process.exit(code)    (index.ts) *)
| HttpShutdown.              (* the [shutdown] closure      (http.ts)  *)

(** The state of the Node process.  Transport objects are named by their
    allocation index in [transports]. *)
Record Process := {
  sessions : gmap string nat;                  (* const sessions = {} : own properties *)
  transports : list Transport;                 (* every StreamableHTTPServerTransport built *)
  resendCount : nat;                           (* client handles constructed so far *)
  servers : list McpServer;                    (* every instance createMcpServer returned *)
  stdioChannels : list McpServer;              (* StdioServerTransport objects, with their server *)
  listening : bool;                            (* the HTTP listener accepts connections *)
  listeners : list (SignalName * Listener);    (* process.on registrations, in order *)
  exited : option Z;                           (* process.exit(code) was invoked *)
  options : ServerOptions;                     (* the shared, read-only configuration *)
}.

Definition setSessions (m : gmap string nat) (p : Process) : Process :=
  {| sessions := m; transports := transports p; resendCount := resendCount p;
     servers := servers p; stdioChannels := stdioChannels p; listening := listening p;
     listeners := listeners p; exited := exited p; options := options p |}.

Definition setTransports (ts : list Transport) (p : Process) : Process :=
  {| sessions := sessions p; transports := ts; resendCount := resendCount p;
     servers := servers p; stdioChannels := stdioChannels p; listening := listening p;
     listeners := listeners p; exited := exited p; options := options p |}.

Definition setListening (b : bool) (p : Process) : Process :=
  {| sessions := sessions p; transports := transports p; resendCount := resendCount p;
     servers := servers p; stdioChannels := stdioChannels p; listening := b;
     listeners := listeners p; exited := exited p; options := options p |}.

Definition addListener (s : SignalName) (l : Listener) (p : Process) : Process :=
  {| sessions := sessions p; transports := transports p; resendCount := resendCount p;
     servers := servers p; stdioChannels := stdioChannels p; listening := listening p;
     listeners := listeners p ++ [(s, l)]; exited := exited p; options := options p |}.

(** [process.exit(code)] *)
Definition processExit (code : Z) (p : Process) : Process :=
  {| sessions := sessions p; transports := transports p; resendCount := resendCount p;
     servers := servers p; stdioChannels := stdioChannels p; listening := listening p;
     listeners := listeners p; exited := Some code; options := options p |}.

(** ** Reading the registry object

    [sessions[k]] finds an own property, or else a property of
    [Object.prototype], or else [undefined]. *)

Inductive JsValue :=
| Undefined
| TransportRef (tid : nat)
| Inherited (name : string).

Definition objectPrototypeKeys : list string :=
  ["constructor"; "hasOwnProperty"; "isPrototypeOf"; "propertyIsEnumerable";
   "toLocaleString"; "toString"; "valueOf"; "__proto__";
   "__defineGetter__"; "__defineSetter__"; "__lookupGetter__"; "__lookupSetter__"].

Definition sessionsGet (m : gmap string nat) (k : string) : JsValue :=
  match m !! k with
  | Some tid => TransportRef tid
  | None => if bool_decide (k ∈ objectPrototypeKeys) then Inherited k else Undefined
  end.

Definition truthyValue (v : JsValue) : bool :=
  match v with Undefined => false | _ => true end.

(** [Object.keys(sessions)]: the own keys (enumerated here in the order of the
    finite map; the loop that uses it is analysed for every order). *)
Definition objectKeys (m : gmap string nat) : list string := (map_to_list m).*1.

(** ** The request handler of [/mcp] *)

Inductive Outcome :=
| Responded (r : Response)   (* a response was written and the handler returned *)
| Connecting (tid : nat)     (* create path, at [await server.connect(transport)] *)
| Handled (tid : nat)        (* [transport.handleRequest(req, res, req.body)] *)
| Thrown.                    (* TypeError: transport.handleRequest is not a function *)

Definition unauthorizedMessage : string :=
  "Unauthorized: provide a Resend API key via Authorization: Bearer <key>".

Definition badRequestMessage : string :=
  "Bad Request: No valid session ID provided".

(** The value of [sessions[sessionId]] where the handler evaluates it (always
    behind [sessionId &&], so the header is a string there). *)
Definition lookupHeader (p : Process) (req : Request) : JsValue :=
  match mcpSessionId req with
  | Some sid => sessionsGet (sessions p) sid
  | None => Undefined
  end.

(** The create path past the credential check: [new Resend(apiKey)], the new
    transport with its two callbacks, [createMcpServer] and the start of
    [server.connect(transport)]. *)
Definition createSession (p : Process) (apiKey : string) : Process * Outcome :=
  let resend := {| resendId := resendCount p; resendApiKey := apiKey |} in
  let tid := length (transports p) in
  let server := createMcpServer resend (options p) in
  let transport :=
    {| sessionId := None; connectedTo := server; handling := false; closed := false |} in
  ({| sessions := sessions p; transports := transports p ++ [transport];
      resendCount := S (resendCount p); servers := servers p ++ [server];
      stdioChannels := stdioChannels p; listening := listening p;
      listeners := listeners p; exited := exited p; options := options p |},
   Connecting tid).

Definition handleMcp (p : Process) (req : Request) : Process * Outcome :=
  let sessionId := mcpSessionId req in
  let found := lookupHeader p req in
  if Js.truthyOpt sessionId && truthyValue found then
    match found with
    | TransportRef tid => (p, Handled tid)
    | _ => (p, Thrown)
    end
  else if negb (Js.truthyOpt sessionId) && String.eqb (method req) "POST"
          && bodyIsInitialize req then
    match extractBearerToken req with
    | None => (p, Responded (sendJsonRpcError 401 unauthorizedMessage))
    | Some apiKey => createSession p apiKey
    end
  else if Js.truthyOpt sessionId && negb (truthyValue found) then
    (p, Responded sessionNotFound)
  else
    (p, Responded (sendJsonRpcError 400 badRequestMessage)).

(** ** Callbacks installed on a transport by the create path *)

(** [onsessioninitialized: (sid) => { sessions[sid] = transport }] *)
Definition onsessioninitialized (tid : nat) (sid : string) (p : Process) : Process :=
  setSessions (<[sid := tid]> (sessions p)) p.

(** [transport.onclose = () => { const sid = transport.sessionId;
      if (sid && sessions[sid]) delete sessions[sid] }] *)
Definition onclose (tid : nat) (p : Process) : Process :=
  match transports p !! tid with
  | Some t =>
      match sessionId t with
      | Some sid =>
          if Js.truthy sid && truthyValue (sessionsGet (sessions p) sid)
          then setSessions (delete sid (sessions p)) p
          else p
      | None => p
      end
  | None => p
  end.

(** ** What the SDK does to a transport *)

Definition setSessionId (sid : string) (t : Transport) : Transport :=
  {| sessionId := Some sid; connectedTo := connectedTo t;
     handling := handling t; closed := closed t |}.

Definition setHandling (t : Transport) : Transport :=
  {| sessionId := sessionId t; connectedTo := connectedTo t;
     handling := true; closed := closed t |}.

Definition setClosed (t : Transport) : Transport :=
  {| sessionId := sessionId t; connectedTo := connectedTo t;
     handling := handling t; closed := true |}.

Definition updateTransport (tid : nat) (f : Transport → Transport) (p : Process) : Process :=
  setTransports (alter f tid (transports p)) p.

(** The format [randomUUID()] returns: 8-4-4-4-12 lower-case hexadecimal. *)
Definition isHexDigit (c : ascii) : bool :=
  let n := nat_of_ascii c in
  ((48 <=? n) && (n <=? 57) || (97 <=? n) && (n <=? 102))%nat.

Fixpoint uuidShape (i : nat) (s : string) : bool :=
  match s with
  | EmptyString => (i =? 36)%nat
  | String c s' =>
      (if bool_decide (i ∈ [8; 13; 18; 23]%nat) then Ascii.eqb c "-" else isHexDigit c)
      && uuidShape (S i) s'
  end.

Definition isUUID (s : string) : bool := uuidShape 0 s.

(** How one call of [transport.close()] went: whether the SDK fired [onclose],
    and whether the call threw. *)
Record CloseResult := {
  firedOnclose : bool;
  threw : bool;
}.

(** [try { await sessions[sid].close() } catch { }] on an own entry. *)
Definition sdkClose (r : CloseResult) (tid : nat) (p : Process) : Process :=
  let p' := updateTransport tid setClosed p in
  if firedOnclose r then onclose tid p' else p'.

(** ** The [shutdown] closure of [runHttp]

    The loop visits the keys that [Object.keys] returned when it started; the
    closure is taken as one stretch, without other events between its
    [await]s. *)

Fixpoint shutdownLoop (close : nat → CloseResult) (keys : list string) (p : Process)
  : Process :=
  match keys with
  | [] => p
  | sid :: rest =>
      let p1 :=
        match sessionsGet (sessions p) sid with
        | TransportRef tid => sdkClose (close tid) tid p
        | _ => p          (* TypeError inside [try]: ignored *)
        end in
      shutdownLoop close rest (setSessions (delete sid (sessions p1)) p1)
  end.

Definition shutdown (close : nat → CloseResult) (p : Process) : Process :=
  let p1 := shutdownLoop close (objectKeys (sessions p)) p in
  let p2 := setListening false p1 in          (* server.close() *)
  processExit 0 p2.

(** ** Signals: [process.emit] runs the listeners of the signal in the order
    they were registered; [process.exit] stops the process on the spot. *)

Definition runListener (close : nat → CloseResult) (l : Listener) (p : Process) : Process :=
  match l with
  | ExitWith code => processExit code p
  | HttpShutdown => shutdown close p
  end.

Fixpoint emit (close : nat → CloseResult) (ls : list Listener) (p : Process) : Process :=
  match ls with
  | [] => p
  | l :: rest =>
      let p' := runListener close l p in
      match exited p' with
      | Some _ => p'
      | None => emit close rest p'
      end
  end.

Definition listenersOf (s : SignalName) (p : Process) : list Listener :=
  (filter (λ sl, sl.1 = s) (listeners p)).*2.

Definition deliver (s : SignalName) (close : nat → CloseResult) (p : Process) : Process :=
  emit close (listenersOf s p) p.

(** ** The two transports and the entry point *)

(** [runStdio(resend, options)]: one server, one [StdioServerTransport],
    connected. *)
Definition runStdio (resend : Resend) (opts : ServerOptions) (p : Process) : Process :=
  let server := createMcpServer resend opts in
  {| sessions := sessions p; transports := transports p; resendCount := resendCount p;
     servers := servers p ++ [server]; stdioChannels := stdioChannels p ++ [server];
     listening := listening p; listeners := listeners p; exited := exited p;
     options := options p |}.

(** [runHttp(options, port)]: the handler closes over [options]; the promise
    executor starts the listener and registers [shutdown] for both signals.
    When the listener cannot bind, Express hands the error to the callback
    given to [app.listen], which it registered for the error event before
    [reject] was: the banner is logged and the promise resolves, so [reject]
    has no effect, [onFatal] does not run and [process.exit] is not called.
    The process is left without a listener. *)
Definition runHttp (opts : ServerOptions) (port : nat) (listenOk : bool) (p : Process)
  : Process :=
  let p0 :=
    {| sessions := sessions p; transports := transports p; resendCount := resendCount p;
       servers := servers p; stdioChannels := stdioChannels p; listening := listening p;
       listeners := listeners p; exited := exited p; options := opts |} in
  let p1 := addListener SIGTERM HttpShutdown (addListener SIGINT HttpShutdown p0) in
  if listenOk then setListening true p1 else p1.

(** [CliConfig] of [src/cli/types.ts]. *)
Inductive CliConfig :=
| StdioConfig (apiKey : string) (sender : string) (repliers : list string) (port : nat)
| HttpConfig (apiKey : option string) (sender : string) (repliers : list string)
    (port : nat).

Definition configOptions (c : CliConfig) : ServerOptions :=
  match c with
  | StdioConfig _ sender repliers _ | HttpConfig _ sender repliers _ =>
      {| senderEmailAddress := sender; replierEmailAddresses := repliers |}
  end.

(** The process before [index.ts] runs. *)
Definition boot (opts : ServerOptions) : Process :=
  {| sessions := ∅; transports := []; resendCount := 0%nat; servers := [];
     stdioChannels := []; listening := false; listeners := []; exited := None;
     options := opts |}.

(** The body of [index.ts], after the configuration is resolved. *)
Definition main (config : CliConfig) (listenOk : bool) : Process :=
  let serverOptions := configOptions config in
  let p1 := addListener SIGINT (ExitWith 0) (boot serverOptions) in
  let p2 := addListener SIGTERM (ExitWith 0) p1 in
  match config with
  | HttpConfig _ _ _ port => runHttp serverOptions port listenOk p2
  | StdioConfig apiKey _ _ _ =>
      let resend := {| resendId := resendCount p2; resendApiKey := apiKey |} in
      let p3 :=
        {| sessions := sessions p2; transports := transports p2;
           resendCount := S (resendCount p2); servers := servers p2;
           stdioChannels := stdioChannels p2; listening := listening p2;
           listeners := listeners p2; exited := exited p2; options := options p2 |} in
      runStdio resend serverOptions p3
  end.

(** ** Events of a run

    Everything that happens to the process after start-up.  Node runs each
    callback to completion, so the synchronous stretches of the handler and the
    callbacks are the atomic steps; what lies between two [await]s of one
    request may be interleaved with any other event. *)

Inductive Event :=
| HttpRequest (req : Request)
    (* a request reaches the [/mcp] handler *)
| ConnectResolved (tid : nat)
    (* [await server.connect(transport)] resolves; [handleRequest] is invoked *)
| SessionInitialized (tid : nat) (uuid : string)
    (* the SDK completes the handshake: [sessionIdGenerator()] returned [uuid],
       it is stored in [transport.sessionId] and [onsessioninitialized] runs *)
| ChannelClosed (tid : nat)
    (* the SDK reports that the channel closed: [transport.onclose()] *)
| Signal (s : SignalName) (close : nat → CloseResult).
    (* SIGINT or SIGTERM is delivered; [close] says how each [close()] goes *)

Definition step (p : Process) (e : Event) : option Process :=
  match exited p with
  | Some _ => None
  | None =>
      match e with
      | HttpRequest req =>
          if listening p then Some (handleMcp p req).1 else None
      | ConnectResolved tid =>
          t ← transports p !! tid;
          if handling t then None else Some (updateTransport tid setHandling p)
      | SessionInitialized tid uuid =>
          t ← transports p !! tid;
          match sessionId t with
          | None =>
              if handling t && isUUID uuid
              then Some (onsessioninitialized tid uuid
                           (updateTransport tid (setSessionId uuid) p))
              else None
          | Some _ => None
          end
      | ChannelClosed tid =>
          t ← transports p !! tid;
          Some (onclose tid (updateTransport tid setClosed p))
      | Signal s close => Some (deliver s close p)
      end
  end.

Fixpoint run (p : Process) (es : list Event) : option Process :=
  match es with
  | [] => Some p
  | e :: es' => p' ← step p e; run p' es'
  end.

(** The session ids drawn from [randomUUID] along a run. *)
Definition draws (es : list Event) : list string :=
  omap (λ e, match e with SessionInitialized _ u => Some u | _ => None end) es.

(** ** Vocabulary of the specification *)

(** A header value of the form [Bearer <token>] whose token is not empty once
    trimmed. *)
Definition bearerForm (h : string) : Prop :=
  ∃ rest, h = "Bearer " +:+ rest ∧ Js.trim rest ≠ EmptyString.

(** The [Authorization] header is absent or malformed. *)
Definition credentialMissing (req : Request) : Prop :=
  match authorization req with
  | None => True
  | Some h => ¬ bearerForm h
  end.

(** The request enters the create path: it is answered by the credential check
    of that path, or a session is constructed for it. *)
Definition takesCreatePath (p : Process) (req : Request) : Prop :=
  handleMcp p req = (p, Responded (sendJsonRpcError 401 unauthorizedMessage))
  ∨ ∃ apiKey, handleMcp p req = createSession p apiKey.

(** The text of an error envelope, character by character:
    [{"jsonrpc":"2.0","error":{"code":CODE,"message":"MESSAGE"},"id":null}]. *)
Definition quoted (s : string) : string := JSON.dquote +:+ s +:+ JSON.dquote.

Definition envelopeText (code message : string) : string :=
  "{" +:+ quoted "jsonrpc" +:+ ":" +:+ quoted "2.0" +:+ ","
  +:+ quoted "error" +:+ ":{" +:+ quoted "code" +:+ ":" +:+ code +:+ ","
  +:+ quoted "message" +:+ ":" +:+ quoted message +:+ "},"
  +:+ quoted "id" +:+ ":null}".

(** [isSubstring needle hay] *)
Fixpoint isSubstring (needle hay : string) : bool :=
  String.prefix needle hay
  || match hay with
     | EmptyString => false
     | String _ hay' => isSubstring needle hay'
     end.

(** A request like [req] but with the given [mcp-session-id] header. *)
Definition withSessionHeader (h : option string) (req : Request) : Request :=
  {| method := method req; mcpSessionId := h; authorization := authorization req;
     bodyIsInitialize := bodyIsInitialize req |}.

(** A process in which no session was ever created. *)
Definition initial (p0 : Process) : Prop :=
  sessions p0 = ∅ ∧ transports p0 = [] ∧ resendCount p0 = 0%nat.

(** The request that built transport [tid] along the run [es] from [p0], and
    the key it carried. *)
Definition builtBy (p0 : Process) (es : list Event) (tid : nat) (req : Request)
    (apiKey : string) : Prop :=
  ∃ es1 es2 p1,
    es = es1 ++ HttpRequest req :: es2
    ∧ run p0 es1 = Some p1
    ∧ length (transports p1) = tid
    ∧ extractBearerToken req = Some apiKey
    ∧ handleMcp p1 req = createSession p1 apiKey.

(** No two transports ever built, open or closed, carry the same session id. *)
Definition distinctIds (p : Process) : Prop :=
  ∀ i j ti tj s,
    transports p !! i = Some ti → transports p !! j = Some tj →
    sessionId ti = Some s → sessionId tj = Some s → i = j.


(** The registry names only transports that carry the id they are stored
    under. *)
Definition consistent (p : Process) : Prop :=
  ∀ sid tid, sessions p !! sid = Some tid →
    ∃ t, transports p !! tid = Some t ∧ sessionId t = Some sid.

(** [close()] was called on transport [tid], or its channel closed. *)
Definition closedIn (p : Process) (tid : nat) : Prop :=
  ∃ t, transports p !! tid = Some t ∧ closed t = true.

(** ** Frames and invariants used in the proofs *)

(** What the transport layer relies on in a transport object; [closed] is the
    only other field. *)
Definition core (t : Transport) : option string * McpServer * bool :=
  (sessionId t, connectedTo t, handling t).

(** [p'] differs from [p] at most by closed channels, removed registry entries,
    a stopped listener and the exit code. *)
Record onlyCloses (p p' : Process) : Prop := OnlyCloses {
  closes_sessions : sessions p' ⊆ sessions p;
  closes_cores : core <$> transports p' = core <$> transports p;
  closes_resendCount : resendCount p' = resendCount p;
  closes_servers : servers p' = servers p;
  closes_stdio : stdioChannels p' = stdioChannels p;
  closes_listeners : listeners p' = listeners p;
  closes_options : options p' = options p;
  closes_listening : listening p' = true → listening p = true;
}.

(** The four shapes of a step: it only closes, it builds a session on the
    create path, it passes [await server.connect], or it completes a
    handshake. *)
Inductive Effect (p : Process) : Event → Process → Prop :=
| effect_closes e p' :
    onlyCloses p p' →
    (∀ tid u, e ≠ SessionInitialized tid u) →
    (∀ req, e = HttpRequest req → p' = p) →
    Effect p e p'
| effect_create req apiKey :
    listening p = true →
    extractBearerToken req = Some apiKey →
    handleMcp p req = createSession p apiKey →
    Effect p (HttpRequest req) (createSession p apiKey).1
| effect_connect tid t :
    transports p !! tid = Some t → handling t = false →
    Effect p (ConnectResolved tid) (updateTransport tid setHandling p)
| effect_initialized tid t uuid :
    transports p !! tid = Some t → sessionId t = None → handling t = true →
    isUUID uuid = true →
    Effect p (SessionInitialized tid uuid)
      (onsessioninitialized tid uuid (updateTransport tid (setSessionId uuid) p)).

(** The invariant of the network transport after the run [es] from [p0]:
    one client handle per transport; every registry entry names a transport
    that carries the entry's id and on which [handleRequest] was invoked; every
    session id was minted by a handshake of the run; every transport was built
    by a create path of the run and is connected to the server bound to the
    handle made from that request's token. *)
Record Inv (p0 : Process) (es : list Event) (p : Process) : Prop := {
  inv_count : resendCount p = length (transports p);
  inv_options : options p = options p0;
  inv_entry : ∀ sid tid, sessions p !! sid = Some tid →
    ∃ t, transports p !! tid = Some t ∧ sessionId t = Some sid ∧ handling t = true;
  inv_minted : ∀ tid t sid, transports p !! tid = Some t → sessionId t = Some sid →
    isUUID sid = true ∧ SessionInitialized tid sid ∈ es;
  inv_origin : ∀ tid t, transports p !! tid = Some t →
    ∃ req apiKey,
      builtBy p0 es tid req apiKey
      ∧ connectedTo t
        = createMcpServer {| resendId := tid; resendApiKey := apiKey |} (options p0);
}.

(** The state in which [runStdio] leaves a process started in stdio mode. *)
Record localShape (server : McpServer) (p : Process) : Prop := {
  local_servers : servers p = [server];
  local_channel : stdioChannels p = [server];
  local_sessions : sessions p = ∅;
  local_transports : transports p = [];
  local_resends : resendCount p = 1%nat;
  local_listening : listening p = false;
}.

(** ** Sample configurations, requests and runs *)

Definition httpConfig : CliConfig := HttpConfig None "onboarding@resend.dev" [] 3000.
Definition stdioConfig : CliConfig := StdioConfig "re_local" "onboarding@resend.dev" [] 3000.

Definition post (sid auth : option string) (init : bool) : Request :=
  {| method := "POST"; mcpSessionId := sid; authorization := auth;
     bodyIsInitialize := init |}.

Definition initA : Request := post None (Some "Bearer secretA") true.
Definition initB : Request := post None (Some "Bearer secretB") true.
Definition uuid1 : string := "123e4567-e89b-42d3-a456-426614174000".
Definition uuid2 : string := "9b2f0c1a-7d3e-4f5a-8b6c-0123456789ab".

(** Every [close()] fires [onclose] and returns normally. *)
Definition closesCleanly : nat → CloseResult :=
  λ _, {| firedOnclose := true; threw := false |}.

(** A PUT request that carries an initialize body and no session header. *)
Definition putInitialize : Request :=
  {| method := "PUT"; mcpSessionId := None; authorization := Some "Bearer secretA";
     bodyIsInitialize := true |}.

(** A GET request whose session header is present but empty. *)
Definition emptyHeaderGet : Request :=
  {| method := "GET"; mcpSessionId := Some EmptyString; authorization := None;
     bodyIsInitialize := false |}.

(** A POST initialize request with an empty session header and no
    [Authorization] header. *)
Definition emptyHeaderInitialize : Request :=
  {| method := "POST"; mcpSessionId := Some EmptyString; authorization := None;
     bodyIsInitialize := true |}.

(** The state a run reaches from the start of the network transport (the start
    state itself when the run is not possible). *)
Definition stateAfter (es : list Event) : Process :=
  default (main httpConfig true) (run (main httpConfig true) es).

(** Two clients, [secretA] then [secretB], each completing the handshake. *)
Definition twoSessions : list Event :=
  [HttpRequest initA; ConnectResolved 0; SessionInitialized 0 uuid1;
   HttpRequest initB; ConnectResolved 1; SessionInitialized 1 uuid2].


(** A create path whose handshake is never completed, beside one that is. *)
Definition abortedHandshake : list Event :=
  [HttpRequest initA; ConnectResolved 0; HttpRequest initB; ConnectResolved 1;
   SessionInitialized 1 uuid2; ChannelClosed 0].

(** Session [uuid1] is created ... *)
Definition createdThenClosed : list Event :=
  [HttpRequest initA; ConnectResolved 0; SessionInitialized 0 uuid1].

(** ... and, once its channel has closed, it closes a second time and another
    client connects. *)
Definition afterClose : list Event :=
  [ChannelClosed 0; HttpRequest initB; ConnectResolved 1; SessionInitialized 1 uuid2].

(** One session is open when SIGINT arrives. *)
Definition signalWithOpenSession : list Event :=
  [HttpRequest initA; ConnectResolved 0; SessionInitialized 0 uuid1;
   Signal SIGINT closesCleanly].

(** * Start-up: command line, environment and the entry point

    [src/cli/resolve.ts] ([parsePort], [resolveConfig], in the version whose
    HTTP mode does not require a key, the one [index.ts] above is written
    for), [src/cli/parse.ts] ([parseReplierAddresses]), [src/cli/index.ts]
    ([resolveConfigOrExit]) and [src/cli/help.ts].  [parseArgs] only calls
    minimist and is not modelled: the functions below take its result.

    Command-line and environment strings are read here like header values:
    one character per UTF-16 code unit, for code units below 256. *)

(** A value found in minimist's [ParsedArgs]. *)
Inductive ArgValue :=
| ArgString (s : string)
| ArgBoolean (b : bool)
| ArgNumber (z : Z)
| ArgArray (xs : list string).

(** [v === true] for a property of [ParsedArgs]. *)
Definition isTrue (v : option ArgValue) : bool :=
  match v with Some (ArgBoolean true) => true | _ => false end.

(** [s.split(sep)] for a separator of one character. *)
Fixpoint split (sep : ascii) (s : string) : list string :=
  match s with
  | EmptyString => [EmptyString]
  | String c r =>
      if Ascii.eqb c sep then EmptyString :: split sep r
      else match split sep r with
           | piece :: pieces => String c piece :: pieces
           | [] => [String c EmptyString]
           end
  end.

Definition isDigit (c : ascii) : bool :=
  let n := nat_of_ascii c in ((48 <=? n) && (n <=? 57))%nat.

Definition digitValue (c : ascii) : Z := Z.of_nat (nat_of_ascii c - 48).

(** The decimal digits at the start of [s], read after the digits that gave
    [acc]; [None] while no digit was read. *)
Fixpoint readDigits (acc : option Z) (s : string) : option Z :=
  match s with
  | EmptyString => acc
  | String c r =>
      if isDigit c then readDigits (Some (10 * default 0 acc + digitValue c)) r
      else acc
  end.

(** [Number.parseInt(s, 10)]; [None] is [NaN].  The result is kept as the exact
    integer the digits denote.  [parsePort] only asks whether it is an integer
    strictly between 0 and 65536 and returns it in that case; the double that
    JavaScript computes is that same integer below 65536 and is not below
    65536 otherwise, so nothing is lost. *)
Definition parseInt (s : string) : option Z :=
  match Js.trimStart s with
  | String "-" r => Z.opp <$> readDigits None r
  | String "+" r => readDigits None r
  | s' => readDigits None s'
  end.

(** [Number.isInteger(v) && v > 0 && v < 65536] *)
Definition isPort (v : option Z) : bool :=
  match v with
  | Some z => (0 <? z) && (z <? 65536)
  | None => false
  end.

(** [parsePort(parsed, env)].  [DEFAULT_HTTP_PORT] comes from
    [src/cli/constants.ts], which is not among the sources: it is a parameter
    here. *)
Definition parsePort (DEFAULT_HTTP_PORT : nat) (parsed : gmap string ArgValue)
    (env : gmap string string) : nat :=
  let fromArg :=
    match parsed !! "port" with
    | Some (ArgString port) =>
        if negb (String.eqb (Js.trim port) "") then parseInt (Js.trim port) else None
    | _ => None
    end in
  if isPort fromArg then Z.to_nat (default 0 fromArg)
  else
    let fromEnv :=
      match env !! "MCP_PORT" with
      | Some v =>
          if negb (String.eqb (Js.trim v) "") then parseInt (Js.trim v) else None
      | None => None
      end in
    if isPort fromEnv then Z.to_nat (default 0 fromEnv)
    else DEFAULT_HTTP_PORT.

(** [parseReplierAddresses(parsed, env)] *)
Definition parseReplierAddresses (parsed : gmap string ArgValue)
    (env : gmap string string) : list string :=
  match parsed !! "reply-to" with
  | Some (ArgArray xs) => xs
  | Some (ArgString s) => [s]
  | _ =>
      match env !! "REPLY_TO_EMAIL_ADDRESSES" with
      | Some v =>
          if Js.truthy (Js.trim v)
          then filter (λ a, Js.truthy a = true) (Js.trim <$> split "," v)
          else []
      | None => []
      end
  end.

(** [ResolveResult] of [src/cli/types.ts]. *)
Inductive ResolveResult :=
| ResolveOk (config : CliConfig)
| ResolveError (error : string).

Definition noApiKeyMessage : string :=
  "No API key. Set RESEND_API_KEY or use --key=<your-resend-api-key>".

(** [resolveConfig(parsed, env)] *)
Definition resolveConfig (DEFAULT_HTTP_PORT : nat) (parsed : gmap string ArgValue)
    (env : gmap string string) : ResolveResult :=
  let apiKey : option string :=
    match parsed !! "key" with
    | Some (ArgString key) => Some key
    | _ => env !! "RESEND_API_KEY"
    end in
  let http := isTrue (parsed !! "http") in
  if negb http
     && (negb (Js.truthyOpt apiKey) || negb (Js.truthyOpt (Js.trim <$> apiKey)))
  then ResolveError noApiKeyMessage
  else
    let senderEmailAddress : option string :=
      match parsed !! "sender" with
      | Some (ArgString sender) => Some sender
      | _ =>
          match env !! "SENDER_EMAIL_ADDRESS" with
          | Some v => if Js.truthy (Js.trim v) then Some (Js.trim v) else None
          | None => None
          end
      end in
    let port := parsePort DEFAULT_HTTP_PORT parsed env in
    let sender := default EmptyString senderEmailAddress in
    let repliers := parseReplierAddresses parsed env in
    if http
    then ResolveOk (HttpConfig (Js.trim <$> apiKey) sender repliers port)
    else ResolveOk (StdioConfig (Js.trim (default EmptyString apiKey)) sender repliers port).

(** [HELP_TEXT] of [src/cli/help.ts]. *)
Definition HELP_TEXT : string := Js.trim "
Resend MCP server

Usage:
  resend-mcp [options]
  npx resend-mcp [options]
  RESEND_API_KEY=re_xxx resend-mcp [options]

Options:
  --key <key>              Resend API key (or set RESEND_API_KEY)
  --sender <email>         Default from address (or SENDER_EMAIL_ADDRESS)
  --reply-to <email>       Reply-to; repeat for multiple (or REPLY_TO_EMAIL_ADDRESSES)
  --http                   Run HTTP server (Streamable HTTP at /mcp) instead of stdio
  --port <number>          HTTP port when using --http (default: 3000, or MCP_PORT)
  -h, --help               Show this help

Environment:
  RESEND_API_KEY           Required if --key not set
  SENDER_EMAIL_ADDRESS     Optional
  REPLY_TO_EMAIL_ADDRESSES Optional, comma-separated
  MCP_PORT                 HTTP port when using --http (optional)
".

(** What [resolveConfigOrExit] does: it leaves the process, having written to
    standard error, or it returns a configuration. *)
Inductive Startup :=
| ExitedAtStartup (code : Z) (stderr : list string)
| Configured (config : CliConfig).

(** [resolveConfigOrExit(argv, env)] *)
Definition resolveConfigOrExit (DEFAULT_HTTP_PORT : nat) (argv : gmap string ArgValue)
    (env : gmap string string) : Startup :=
  if isTrue (argv !! "help") || isTrue (argv !! "h")
  then ExitedAtStartup 0 [HELP_TEXT]
  else
    match resolveConfig DEFAULT_HTTP_PORT argv env with
    | ResolveError error => ExitedAtStartup 1 ["Error: " +:+ error]
    | ResolveOk config => Configured config
    end.

(** [index.ts] from its first line: the configuration is resolved, then the
    transport is started. *)
Inductive Launch :=
| Quit (code : Z)
| Running (p : Process).

Definition program (DEFAULT_HTTP_PORT : nat) (argv : gmap string ArgValue)
    (env : gmap string string) (listenOk : bool) : Launch :=
  match resolveConfigOrExit DEFAULT_HTTP_PORT argv env with
  | ExitedAtStartup code _ => Quit code
  | Configured config => Running (main config listenOk)
  end.

(** ** Vocabulary for strings *)

(** Every character of [s] is white space. *)
Fixpoint allWhiteSpace (s : string) : bool :=
  match s with
  | EmptyString => true
  | String c r => Js.isWhiteSpace c && allWhiteSpace r
  end.

(** [s] does not start with white space. *)
Definition startsClean (s : string) : bool :=
  match s with
  | EmptyString => true
  | String c _ => negb (Js.isWhiteSpace c)
  end.

(** [s] does not end with white space. *)
Fixpoint endsClean (s : string) : bool :=
  match s with
  | EmptyString => true
  | String c EmptyString => negb (Js.isWhiteSpace c)
  | String _ r => endsClean r
  end.

(** A value as a user means it: not empty, no white space around it. *)
Definition clean (s : string) : Prop :=
  s ≠ EmptyString ∧ startsClean s = true ∧ endsClean s = true.

(** [l.join(sep)] *)
Fixpoint join (sep : string) (l : list string) : string :=
  match l with
  | [] => EmptyString
  | [a] => a
  | a :: l' => a +:+ sep +:+ join sep l'
  end.

(** [c] does not occur in [s]. *)
Fixpoint lacks (c : ascii) (s : string) : bool :=
  match s with
  | EmptyString => true
  | String d r => negb (Ascii.eqb d c) && lacks c r
  end.

(** An address as it stands in a comma-separated list: white space, the
    address, white space. *)
Record Padded := {
  padLeft : string;
  padAddress : string;
  padRight : string;
}.

Definition written (e : Padded) : string := padLeft e +:+ padAddress e +:+ padRight e.

Definition wellPadded (e : Padded) : Prop :=
  allWhiteSpace (padLeft e) = true ∧ allWhiteSpace (padRight e) = true
  ∧ clean (padAddress e) ∧ lacks "," (padAddress e) = true.

(** Every character of [s] is a decimal digit. *)
Fixpoint allDigits (s : string) : bool :=
  match s with
  | EmptyString => true
  | String c r => isDigit c && allDigits r
  end.

(** [s] starts with a decimal digit. *)
Definition startsWithDigit (s : string) : bool :=
  match s with
  | EmptyString => false
  | String c _ => isDigit c
  end.

(** * Properties *)

(** ** String facts behind [extractBearerToken] *)

Lemma prefix_app (p s : string) :
  String.prefix p s = true ↔ ∃ r, s = p +:+ r.
Proof.
  revert s. induction p as [|c p IH]; intros s; simpl.
  - split; [by exists s | by destruct s].
  - destruct s as [|d s]; simpl.
    + split; [done | intros [r Hr]; discriminate].
    + destruct (Ascii.ascii_dec c d) as [->|Hne].
      * rewrite IH. split; intros [r Hr]; exists r; [by rewrite Hr | by injection Hr].
      * split; [done | intros [r Hr]; injection Hr; congruence].
Qed.

Lemma slice_app (p r : string) : Js.slice (String.length p) (p +:+ r) = r.
Proof. induction p; simpl; [by destruct r | done]. Qed.

Lemma truthy_false (s : string) : Js.truthy s = false ↔ s = EmptyString.
Proof. by destruct s. Qed.

Lemma truthy_true (s : string) : Js.truthy s = true ↔ s ≠ EmptyString.
Proof. by destruct s. Qed.

(** [extractBearerToken] returns [null] exactly on a missing or malformed
    header, and otherwise the trimmed token. *)
Lemma extractBearerToken_app (req : Request) (r : string) :
  authorization req = Some ("Bearer " +:+ r) →
  extractBearerToken req = if Js.truthy (Js.trim r) then Some (Js.trim r) else None.
Proof.
  intros Ha. unfold extractBearerToken. rewrite Ha.
  assert (Js.startsWith ("Bearer " +:+ r) "Bearer " = true) as ->
    by (apply prefix_app; eauto).
  by rewrite (slice_app "Bearer " r).
Qed.

Lemma extractBearerToken_no_prefix (req : Request) (h : string) :
  authorization req = Some h → String.prefix "Bearer " h = false →
  extractBearerToken req = None.
Proof.
  intros Ha Hp. unfold extractBearerToken, Js.startsWith. rewrite Ha, Hp.
  by rewrite orb_true_r.
Qed.

Lemma extractBearerToken_None (req : Request) :
  extractBearerToken req = None ↔ credentialMissing req.
Proof.
  unfold credentialMissing, bearerForm.
  destruct (authorization req) as [h|] eqn:Ha;
    [|by unfold extractBearerToken; rewrite Ha].
  destruct (String.prefix "Bearer " h) eqn:Hp.
  - apply prefix_app in Hp as [r ->].
    rewrite (extractBearerToken_app req r Ha).
    destruct (Js.truthy (Js.trim r)) eqn:Ht.
    + split; [done|]. intros Hn. exfalso. apply Hn. exists r.
      split; [done|]. by apply truthy_true.
    + split; [|done]. intros _ [r' [Heq Hne]].
      apply (inj (String.app "Bearer ")) in Heq. subst r'.
      by apply truthy_false in Ht.
  - rewrite (extractBearerToken_no_prefix req h Ha Hp).
    split; [|done]. intros _ [r [-> _]].
    assert (String.prefix "Bearer " ("Bearer " +:+ r) = true) by (apply prefix_app; eauto).
    congruence.
Qed.

Lemma extractBearerToken_Some (req : Request) (token : string) :
  extractBearerToken req = Some token →
  ∃ rest, authorization req = Some ("Bearer " +:+ rest)
          ∧ token = Js.trim rest ∧ token ≠ EmptyString.
Proof.
  intros He.
  destruct (authorization req) as [h|] eqn:Ha;
    [|by unfold extractBearerToken in He; rewrite Ha in He].
  destruct (String.prefix "Bearer " h) eqn:Hp.
  - apply prefix_app in Hp as [r ->].
    rewrite (extractBearerToken_app req r Ha) in He.
    destruct (Js.truthy (Js.trim r)) eqn:Ht; [|done].
    injection He as <-. exists r. by rewrite <-truthy_true.
  - by rewrite (extractBearerToken_no_prefix req h Ha Hp) in He.
Qed.

(** ** The handler, branch by branch *)

Lemma handleMcp_without_session (p : Process) (req : Request) :
  Js.truthyOpt (mcpSessionId req) = false →
  handleMcp p req =
    if String.eqb (method req) "POST" && bodyIsInitialize req then
      match extractBearerToken req with
      | None => (p, Responded (sendJsonRpcError 401 unauthorizedMessage))
      | Some apiKey => createSession p apiKey
      end
    else (p, Responded (sendJsonRpcError 400 badRequestMessage)).
Proof.
  intros Hs. unfold handleMcp. rewrite Hs. cbn [andb negb].
  by destruct (String.eqb (method req) "POST" && bodyIsInitialize req).
Qed.

Lemma handleMcp_with_session (p : Process) (req : Request) (sid : string) :
  mcpSessionId req = Some sid → sid ≠ EmptyString →
  handleMcp p req =
    match sessionsGet (sessions p) sid with
    | TransportRef tid => (p, Handled tid)
    | Inherited _ => (p, Thrown)
    | Undefined => (p, Responded sessionNotFound)
    end.
Proof.
  intros Hs Hne. apply truthy_true in Hne.
  unfold handleMcp, lookupHeader. rewrite Hs. cbn [Js.truthyOpt]. rewrite Hne.
  by destruct (sessionsGet (sessions p) sid).
Qed.

Lemma sessionsGet_own (m : gmap string nat) (k : string) (tid : nat) :
  m !! k = Some tid → sessionsGet m k = TransportRef tid.
Proof. intros H. unfold sessionsGet. by rewrite H. Qed.

Lemma sessionsGet_undefined (m : gmap string nat) (k : string) :
  m !! k = None → k ∉ objectPrototypeKeys → sessionsGet m k = Undefined.
Proof.
  intros H Hk. unfold sessionsGet. rewrite H. by rewrite bool_decide_eq_false_2.
Qed.

Lemma sessionsGet_inherited (m : gmap string nat) (k : string) :
  m !! k = None → k ∈ objectPrototypeKeys → sessionsGet m k = Inherited k.
Proof.
  intros H Hk. unfold sessionsGet. rewrite H. by rewrite bool_decide_eq_true_2.
Qed.

(** The handler never touches anything but what [createSession] adds. *)
Lemma handleMcp_state (p : Process) (req : Request) :
  (handleMcp p req).1 = p
  ∨ ∃ apiKey, extractBearerToken req = Some apiKey
              ∧ handleMcp p req = createSession p apiKey.
Proof.
  unfold handleMcp.
  destruct (Js.truthyOpt (mcpSessionId req) && truthyValue (lookupHeader p req)).
  { left. by destruct (lookupHeader p req). }
  destruct (negb (Js.truthyOpt (mcpSessionId req)) && String.eqb (method req) "POST"
            && bodyIsInitialize req).
  { destruct (extractBearerToken req) as [k|]; [right; eauto | by left]. }
  destruct (Js.truthyOpt (mcpSessionId req) && negb (truthyValue (lookupHeader p req)));
    by left.
Qed.

(** ** Requests without a usable session header *)

(** C3. An initialize request on the create path whose [Authorization] header
    is absent or not of the form [Bearer <token>] with a non-empty trimmed
    token is answered with status 401 and the instructive message, which names
    the [Authorization: Bearer] header; the process state is returned as it
    was, so no client handle, transport or server is built and the registry is
    unchanged. *)
Theorem C3_authentication_gating (p : Process) (req : Request) :
  Js.truthyOpt (mcpSessionId req) = false →
  method req = "POST" →
  bodyIsInitialize req = true →
  credentialMissing req →
  ∃ r, handleMcp p req = (p, Responded r)
       ∧ statusCode r = 401
       ∧ body r = envelopeText "-32000" unauthorizedMessage
       ∧ isSubstring "Authorization: Bearer" (body r) = true
       ∧ sessions (handleMcp p req).1 = sessions p
       ∧ transports (handleMcp p req).1 = transports p
       ∧ servers (handleMcp p req).1 = servers p
       ∧ resendCount (handleMcp p req).1 = resendCount p.
Proof.
  intros Hs Hm Hi Hc. apply extractBearerToken_None in Hc.
  rewrite (handleMcp_without_session p req Hs), Hm, Hi, Hc. cbn [String.eqb andb].
  eexists. split; [reflexivity|]. by vm_compute.
Qed.

Lemma C3_authentication_gating_witness :
  ∃ r, handleMcp (main httpConfig true) (post None (Some "Bearer    ") true)
       = (main httpConfig true, Responded r)
       ∧ statusCode r = 401.
Proof.
  destruct (C3_authentication_gating (main httpConfig true)
              (post None (Some "Bearer    ") true)) as (r & Hr & Hst & _).
  - reflexivity.
  - reflexivity.
  - reflexivity.
  - intros [rest [Heq Hne]]. apply (inj (String.app "Bearer ")) in Heq.
    subst rest. by apply Hne.
  - exists r. by split.
Defined.

Lemma sendJsonRpcError_400_body :
  sendJsonRpcError 400 badRequestMessage
  = {| statusCode := 400; contentType := "application/json";
       body := envelopeText "-32000" "Bad Request: No valid session ID provided" |}.
Proof. reflexivity. Qed.

Lemma sessionNotFound_body :
  sessionNotFound
  = {| statusCode := 404; contentType := "application/json";
       body := envelopeText "-32001" "Session not found" |}.
Proof. reflexivity. Qed.

Lemma post_initialize_dec (req : Request) :
  String.eqb (method req) "POST" && bodyIsInitialize req = true
  ↔ method req = "POST" ∧ bodyIsInitialize req = true.
Proof. by rewrite andb_true_iff, String.eqb_eq. Qed.

(** C4, as stated, fails: an initialize body sent with another method than
    POST and without session header is answered 400; the create path is not
    taken. *)
Lemma C4_counterexample :
  mcpSessionId putInitialize = None
  ∧ bodyIsInitialize putInitialize = true
  ∧ handleMcp (main httpConfig true) putInitialize
    = (main httpConfig true, Responded (sendJsonRpcError 400 badRequestMessage))
  ∧ ¬ takesCreatePath (main httpConfig true) putInitialize.
Proof.
  split; [done|]. split; [done|]. split; [done|].
  intros [H|[k H]]; vm_compute in H; discriminate H.
Qed.

(** C4, amended. For a request without session header the create path is
    taken if and only if the method is POST and the body is an initialize
    request; every other such request is answered 400 Bad Request with the
    process state, hence the registry, unchanged. *)
Theorem C4_create_path_decision (p : Process) (req : Request) :
  mcpSessionId req = None →
  (takesCreatePath p req ↔ method req = "POST" ∧ bodyIsInitialize req = true)
  ∧ (¬ (method req = "POST" ∧ bodyIsInitialize req = true) →
     handleMcp p req
     = (p, Responded {| statusCode := 400; contentType := "application/json";
                        body := envelopeText "-32000"
                                  "Bad Request: No valid session ID provided" |})).
Proof.
  intros Hs.
  assert (Js.truthyOpt (mcpSessionId req) = false) as Ht by (by rewrite Hs).
  pose proof (handleMcp_without_session p req Ht) as Hh.
  destruct (String.eqb (method req) "POST" && bodyIsInitialize req) eqn:Hc.
  - apply post_initialize_dec in Hc. split; [|done].
    split; [done|]. intros _. unfold takesCreatePath. rewrite Hh.
    destruct (extractBearerToken req); [right; eauto | by left].
  - assert (¬ (method req = "POST" ∧ bodyIsInitialize req = true)) as Hn.
    { rewrite <-post_initialize_dec. by rewrite Hc. }
    split; [|by intros _; rewrite Hh].
    split; [|done]. unfold takesCreatePath. rewrite Hh.
    intros [H|[k H]]; [|discriminate H].
    injection H as H. vm_compute in H. discriminate H.
Qed.

Lemma C4_create_path_decision_witness :
  takesCreatePath (main httpConfig true) initA
  ↔ method initA = "POST" ∧ bodyIsInitialize initA = true.
Proof.
  apply (C4_create_path_decision (main httpConfig true) initA). reflexivity.
Defined.

(** C7, as stated, fails: a session header that is present, empty, and hence
    names no registry entry, is answered 400 with code -32000, not 404. *)
Lemma C7_counterexample :
  mcpSessionId emptyHeaderGet = Some EmptyString
  ∧ sessions (main httpConfig true) !! EmptyString = None
  ∧ handleMcp (main httpConfig true) emptyHeaderGet
    = (main httpConfig true,
       Responded {| statusCode := 400; contentType := "application/json";
                    body := envelopeText "-32000"
                              "Bad Request: No valid session ID provided" |}).
Proof. by vm_compute. Qed.

(** C7, amended. A request with no session header whose body is not an
    initialize request is answered with status 400 and the body
    [{"jsonrpc":"2.0","error":{"code":-32000,"message":"Bad Request: No valid
    session ID provided"},"id":null}]; a request whose session header is not
    empty, is not a key of the registry and is not a name inherited from
    [Object.prototype] is answered with status 404, code -32001 and message
    [Session not found], whatever happened in the process before. *)
Theorem C7_error_envelopes (p : Process) (req : Request) :
  (mcpSessionId req = None → bodyIsInitialize req = false →
   handleMcp p req
   = (p, Responded {| statusCode := 400; contentType := "application/json";
                      body := envelopeText "-32000"
                                "Bad Request: No valid session ID provided" |}))
  ∧ (∀ sid, mcpSessionId req = Some sid →
       sid ≠ EmptyString → sid ∉ objectPrototypeKeys → sessions p !! sid = None →
       handleMcp p req
       = (p, Responded {| statusCode := 404; contentType := "application/json";
                          body := envelopeText "-32001" "Session not found" |})).
Proof.
  split.
  - intros Hs Hi.
    rewrite handleMcp_without_session by (by rewrite Hs).
    by rewrite Hi, andb_false_r.
  - intros sid Hs Hne Hproto Hnone.
    rewrite (handleMcp_with_session p req sid Hs Hne).
    by rewrite (sessionsGet_undefined _ _ Hnone Hproto).
Qed.

Lemma C7_error_envelopes_witness :
  handleMcp (main httpConfig true) (post (Some uuid1) None false)
  = (main httpConfig true,
     Responded {| statusCode := 404; contentType := "application/json";
                  body := envelopeText "-32001" "Session not found" |})
  ∧ handleMcp (main httpConfig true) (post None None false)
    = (main httpConfig true,
       Responded {| statusCode := 400; contentType := "application/json";
                    body := envelopeText "-32000"
                              "Bad Request: No valid session ID provided" |}).
Proof.
  split.
  - apply (proj2 (C7_error_envelopes (main httpConfig true)
                    (post (Some uuid1) None false)) uuid1);
      [reflexivity | done | | reflexivity].
    apply (bool_decide_eq_false_1 _). by vm_compute.
  - by apply (proj1 (C7_error_envelopes (main httpConfig true) (post None None false))).
Defined.

(** ** The empty session header *)

(** C10, as stated, fails: a request with an empty session header that is a
    POST initialize request without bearer credential is answered 401, which
    is neither the create path with a valid credential nor 400. *)
Lemma C10_counterexample :
  mcpSessionId emptyHeaderInitialize = Some EmptyString
  ∧ extractBearerToken emptyHeaderInitialize = None
  ∧ handleMcp (main httpConfig true) emptyHeaderInitialize
    = (main httpConfig true,
       Responded {| statusCode := 401; contentType := "application/json";
                    body := envelopeText "-32000" unauthorizedMessage |}).
Proof. by vm_compute. Qed.

(** C10, amended. A request whose [mcp-session-id] header is the empty string
    is handled exactly as the same request without that header: a POST
    initialize request takes the create path, where a valid bearer credential
    creates a session and a missing or malformed one is answered 401; a
    request that is not a POST initialize request is answered 400; the answer
    is never the 404 of an unknown session. *)
Theorem C10_empty_session_header (p : Process) (req : Request) :
  handleMcp p (withSessionHeader (Some EmptyString) req)
  = handleMcp p (withSessionHeader None req)
  ∧ (∀ r, (handleMcp p (withSessionHeader (Some EmptyString) req)).2 = Responded r →
          statusCode r ≠ 404)
  ∧ (∀ apiKey, method req = "POST" → bodyIsInitialize req = true →
               extractBearerToken req = Some apiKey →
               handleMcp p (withSessionHeader (Some EmptyString) req)
               = createSession p apiKey)
  ∧ (method req = "POST" → bodyIsInitialize req = true →
     extractBearerToken req = None →
     handleMcp p (withSessionHeader (Some EmptyString) req)
     = (p, Responded (sendJsonRpcError 401 unauthorizedMessage)))
  ∧ (¬ (method req = "POST" ∧ bodyIsInitialize req = true) →
     handleMcp p (withSessionHeader (Some EmptyString) req)
     = (p, Responded (sendJsonRpcError 400 badRequestMessage))).
Proof.
  set (req' := withSessionHeader (Some EmptyString) req).
  assert (handleMcp p req' =
    if String.eqb (method req) "POST" && bodyIsInitialize req then
      match extractBearerToken req with
      | None => (p, Responded (sendJsonRpcError 401 unauthorizedMessage))
      | Some apiKey => createSession p apiKey
      end
    else (p, Responded (sendJsonRpcError 400 badRequestMessage))) as Hh.
  { by rewrite (handleMcp_without_session p req'). }
  split; [|split; [|split; [|split]]].
  - rewrite Hh. by rewrite (handleMcp_without_session p (withSessionHeader None req)).
  - intros r. rewrite Hh.
    destruct (String.eqb (method req) "POST" && bodyIsInitialize req);
      [destruct (extractBearerToken req)|]; simpl; intros [= <-]; done.
  - intros k Hm Hi Hk. rewrite Hh, Hm, Hi. cbn [String.eqb andb].
    change (extractBearerToken req = Some k) in Hk. by rewrite Hk.
  - intros Hm Hi Hk. rewrite Hh, Hm, Hi. cbn [String.eqb andb].
    change (extractBearerToken req = None) in Hk. by rewrite Hk.
  - intros Hn. rewrite Hh. rewrite <-post_initialize_dec in Hn.
    by destruct (String.eqb (method req) "POST" && bodyIsInitialize req).
Qed.

Lemma C10_empty_session_header_witness :
  handleMcp (main httpConfig true) (withSessionHeader (Some EmptyString) initA)
  = createSession (main httpConfig true) "secretA".
Proof.
  by apply (C10_empty_session_header (main httpConfig true) initA).
Defined.

(** ** Names inherited by the registry object *)

(** A session header equal to a property name of [Object.prototype] is not a
    key of the registry, yet [sessions[sessionId]] is truthy: the handler
    takes the continuation branch and throws on [transport.handleRequest]. *)
Lemma inherited_name_throws (p : Process) (req : Request) (sid : string) :
  mcpSessionId req = Some sid → sid ∈ objectPrototypeKeys →
  sessions p !! sid = None →
  handleMcp p req = (p, Thrown).
Proof.
  intros Hs Hin Hnone.
  assert (sid ≠ EmptyString) as Hne.
  { intros ->. revert Hin. apply (bool_decide_eq_false_1 _). by vm_compute. }
  rewrite (handleMcp_with_session p req sid Hs Hne).
  by rewrite (sessionsGet_inherited _ _ Hnone Hin).
Qed.

(** ** Frame: operations that only close channels and drop registry entries *)

Lemma onlyCloses_refl (p : Process) : onlyCloses p p.
Proof. by split. Qed.

Lemma onlyCloses_trans (p q r : Process) :
  onlyCloses p q → onlyCloses q r → onlyCloses p r.
Proof.
  intros [] []. split; try congruence; [by etrans | auto].
Qed.

Lemma onlyCloses_lookup (p p' : Process) (i : nat) (t' : Transport) :
  onlyCloses p p' → transports p' !! i = Some t' →
  ∃ t, transports p !! i = Some t ∧ core t = core t'.
Proof.
  intros Hc Ht.
  assert ((core <$> transports p) !! i = Some (core t')) as H.
  { rewrite <-(closes_cores _ _ Hc), list_lookup_fmap, Ht. done. }
  apply list_lookup_fmap_Some in H as (t & ? & ?). eauto.
Qed.

Lemma onlyCloses_lookup_back (p p' : Process) (i : nat) (t : Transport) :
  onlyCloses p p' → transports p !! i = Some t →
  ∃ t', transports p' !! i = Some t' ∧ core t' = core t.
Proof.
  intros Hc Ht.
  assert ((core <$> transports p') !! i = Some (core t)) as H.
  { rewrite (closes_cores _ _ Hc), list_lookup_fmap, Ht. done. }
  apply list_lookup_fmap_Some in H as (t' & ? & ?). eauto.
Qed.

Lemma onlyCloses_length (p p' : Process) :
  onlyCloses p p' → length (transports p') = length (transports p).
Proof.
  intros Hc. rewrite <-(length_fmap core (transports p')), (closes_cores _ _ Hc).
  apply length_fmap.
Qed.

Lemma onlyCloses_setClosed (tid : nat) (p : Process) :
  onlyCloses p (updateTransport tid setClosed p).
Proof.
  split; try done. simpl.
  rewrite (list_fmap_alter core setClosed id); [by rewrite list_alter_id|].
  by apply Forall_forall.
Qed.

Lemma onlyCloses_delete (sid : string) (p : Process) :
  onlyCloses p (setSessions (delete sid (sessions p)) p).
Proof. split; try done. apply delete_subseteq. Qed.

Lemma onlyCloses_onclose (tid : nat) (p : Process) :
  onlyCloses p (onclose tid p).
Proof.
  unfold onclose. destruct (transports p !! tid) as [t|]; [|apply onlyCloses_refl].
  destruct (sessionId t) as [sid|]; [|apply onlyCloses_refl].
  destruct (Js.truthy sid && truthyValue (sessionsGet (sessions p) sid));
    [apply onlyCloses_delete | apply onlyCloses_refl].
Qed.

Lemma onlyCloses_sdkClose (r : CloseResult) (tid : nat) (p : Process) :
  onlyCloses p (sdkClose r tid p).
Proof.
  unfold sdkClose. destruct (firedOnclose r); [|apply onlyCloses_setClosed].
  eapply onlyCloses_trans; [apply onlyCloses_setClosed | apply onlyCloses_onclose].
Qed.

Lemma onlyCloses_shutdownLoop close (keys : list string) (p : Process) :
  onlyCloses p (shutdownLoop close keys p).
Proof.
  revert p. induction keys as [|sid keys IH]; intros p; simpl;
    [apply onlyCloses_refl|].
  eapply onlyCloses_trans; [|apply IH].
  eapply onlyCloses_trans; [|apply onlyCloses_delete].
  destruct (sessionsGet (sessions p) sid);
    [apply onlyCloses_refl | apply onlyCloses_sdkClose | apply onlyCloses_refl].
Qed.

Lemma onlyCloses_processExit (code : Z) (p : Process) :
  onlyCloses p (processExit code p).
Proof. by split. Qed.

Lemma onlyCloses_shutdown close (p : Process) : onlyCloses p (shutdown close p).
Proof.
  unfold shutdown.
  apply (onlyCloses_trans _ (shutdownLoop close (objectKeys (sessions p)) p));
    [apply onlyCloses_shutdownLoop | by split].
Qed.

Lemma onlyCloses_emit close (ls : list Listener) (p : Process) :
  onlyCloses p (emit close ls p).
Proof.
  revert p. induction ls as [|l ls IH]; intros p; simpl; [apply onlyCloses_refl|].
  assert (onlyCloses p (runListener close l p)) as Hl.
  { destruct l; [apply onlyCloses_processExit | apply onlyCloses_shutdown]. }
  destruct (exited (runListener close l p)); [done|].
  eapply onlyCloses_trans; [exact Hl | apply IH].
Qed.

Lemma onlyCloses_deliver (s : SignalName) close (p : Process) :
  onlyCloses p (deliver s close p).
Proof. apply onlyCloses_emit. Qed.

(** ** The shapes a step can take *)

Lemma step_effect (p : Process) (e : Event) (p' : Process) :
  step p e = Some p' → exited p = None ∧ Effect p e p'.
Proof.
  unfold step. destruct (exited p) eqn:Hex; [done|]. intros Hs. split; [done|].
  destruct e as [req|tid|tid u|tid|s close]; simpl in Hs.
  - destruct (listening p) eqn:Hl; [|done]. injection Hs as <-.
    destruct (handleMcp_state p req) as [Hsame|(k & Hk & Hc)].
    + rewrite Hsame. apply effect_closes; [apply onlyCloses_refl|done|done].
    + rewrite Hc. by eapply effect_create.
  - destruct (transports p !! tid) as [t|] eqn:Ht; [|done]. simpl in Hs.
    destruct (handling t) eqn:Hh; [done|]. injection Hs as <-.
    by eapply effect_connect.
  - destruct (transports p !! tid) as [t|] eqn:Ht; [|done]. simpl in Hs.
    destruct (sessionId t) eqn:Hsid; [done|].
    destruct (handling t) eqn:Hh; [|done].
    destruct (isUUID u) eqn:Hu; [|done]. injection Hs as <-.
    by eapply effect_initialized.
  - destruct (transports p !! tid) as [t|] eqn:Ht; [|done]. simpl in Hs.
    injection Hs as <-. apply effect_closes; [|done|done].
    eapply onlyCloses_trans; [apply onlyCloses_setClosed | apply onlyCloses_onclose].
  - injection Hs as <-. apply effect_closes; [apply onlyCloses_deliver|done|done].
Qed.

Lemma run_app (p : Process) (es es' : list Event) :
  run p (es ++ es') = p' ← run p es; run p' es'.
Proof.
  revert p. induction es as [|e es IH]; intros p; simpl; [done|].
  destruct (step p e); simpl; [apply IH | done].
Qed.

Lemma run_snoc (p : Process) (es : list Event) (e : Event) (p' : Process) :
  run p (es ++ [e]) = Some p' ↔ ∃ q, run p es = Some q ∧ step q e = Some p'.
Proof.
  rewrite run_app. destruct (run p es) as [q|]; simpl.
  - destruct (step q e) as [q'|] eqn:Hq; simpl.
    + split; [intros [= <-]; eauto | intros (? & [= <-] & H); congruence].
    + split; [done | intros (? & [= <-] & H); congruence].
  - split; [done | by intros (? & ? & ?)].
Qed.

(** ** The invariant of the network transport *)

Lemma builtBy_snoc p0 es e tid req apiKey :
  builtBy p0 es tid req apiKey → builtBy p0 (es ++ [e]) tid req apiKey.
Proof.
  intros (es1 & es2 & p1 & -> & ?). exists es1, (es2 ++ [e]), p1.
  split; [|done]. by rewrite <-app_assoc.
Qed.

Lemma lookup_alter_Some (f : Transport → Transport) (l : list Transport)
    (tid i : nat) (t' : Transport) :
  alter f tid l !! i = Some t' →
  ∃ t, l !! i = Some t ∧ (i ≠ tid ∧ t' = t ∨ i = tid ∧ t' = f t).
Proof.
  destruct (decide (i = tid)) as [->|Hne].
  - rewrite list_lookup_alter_eq. destruct (l !! tid) as [t|]; [|done].
    intros [= <-]. eauto.
  - rewrite list_lookup_alter_ne by done. eauto.
Qed.

Lemma Inv_closes p0 es e q p :
  Inv p0 es q → onlyCloses q p → Inv p0 (es ++ [e]) p.
Proof.
  intros HI Hc. split.
  - rewrite (closes_resendCount _ _ Hc), (onlyCloses_length _ _ Hc).
    apply (inv_count _ _ _ HI).
  - rewrite (closes_options _ _ Hc). apply (inv_options _ _ _ HI).
  - intros sid tid Hs.
    pose proof (lookup_weaken _ _ _ _ Hs (closes_sessions _ _ Hc)) as Hq.
    destruct (inv_entry _ _ _ HI _ _ Hq) as (t & Ht & Hsid & Hh).
    destruct (onlyCloses_lookup_back _ _ _ _ Hc Ht) as (t' & Ht' & [= ? ? ?]).
    exists t'. split; [done|]. split; congruence.
  - intros tid t' sid Ht' Hsid.
    destruct (onlyCloses_lookup _ _ _ _ Hc Ht') as (t & Ht & [= ? ? ?]).
    destruct (inv_minted _ _ _ HI tid t sid Ht) as [? ?]; [congruence|].
    split; [done|]. apply elem_of_app. by left.
  - intros tid t' Ht'.
    destruct (onlyCloses_lookup _ _ _ _ Hc Ht') as (t & Ht & [= ? ? ?]).
    destruct (inv_origin _ _ _ HI tid t Ht) as (req & k & Hb & Hconn).
    exists req, k. split; [by apply builtBy_snoc | congruence].
Qed.

Lemma Inv_create p0 es q req apiKey :
  run p0 es = Some q → Inv p0 es q →
  extractBearerToken req = Some apiKey →
  handleMcp q req = createSession q apiKey →
  Inv p0 (es ++ [HttpRequest req]) (createSession q apiKey).1.
Proof.
  intros Hrun HI Hk Hh. split; simpl.
  - rewrite length_app, (inv_count _ _ _ HI). simpl. lia.
  - apply (inv_options _ _ _ HI).
  - intros sid tid Hs.
    destruct (inv_entry _ _ _ HI _ _ Hs) as (t & Ht & ?).
    exists t. split; [|done]. by apply lookup_app_l_Some.
  - intros tid t sid Ht Hsid. apply lookup_snoc_Some in Ht as [[_ Ht]|[_ <-]]; [|done].
    destruct (inv_minted _ _ _ HI tid t sid Ht Hsid) as [? ?].
    split; [done|]. apply elem_of_app. by left.
  - intros tid t Ht. apply lookup_snoc_Some in Ht as [[_ Ht]|[-> <-]].
    + destruct (inv_origin _ _ _ HI tid t Ht) as (r & k & Hb & Hconn).
      exists r, k. split; [by apply builtBy_snoc | done].
    + exists req, apiKey. split.
      * exists es, [], q. done.
      * simpl. by rewrite (inv_count _ _ _ HI), (inv_options _ _ _ HI).
Qed.

Lemma Inv_connect p0 es q tid t :
  Inv p0 es q → transports q !! tid = Some t →
  Inv p0 (es ++ [ConnectResolved tid]) (updateTransport tid setHandling q).
Proof.
  intros HI Htid. split; simpl.
  - rewrite length_alter. apply (inv_count _ _ _ HI).
  - apply (inv_options _ _ _ HI).
  - intros sid i Hs.
    destruct (inv_entry _ _ _ HI _ _ Hs) as (t0 & Ht0 & Hsid & Hh).
    destruct (decide (i = tid)) as [->|Hne].
    + exists (setHandling t0). rewrite list_lookup_alter_eq, Ht0. done.
    + exists t0. by rewrite list_lookup_alter_ne.
  - intros i t' sid Ht' Hsid.
    apply lookup_alter_Some in Ht' as (t0 & Ht0 & [[_ ->]|[_ ->]]);
      (destruct (inv_minted _ _ _ HI i t0 sid Ht0 Hsid) as [? ?];
       split; [done|]; apply elem_of_app; by left).
  - intros i t' Ht'.
    apply lookup_alter_Some in Ht' as (t0 & Ht0 & [[_ ->]|[_ ->]]);
      (destruct (inv_origin _ _ _ HI i t0 Ht0) as (r & k & Hb & Hconn);
       exists r, k; split; [by apply builtBy_snoc | done]).
Qed.

Lemma Inv_initialized p0 es q tid t uuid :
  Inv p0 es q → transports q !! tid = Some t → sessionId t = None →
  handling t = true → isUUID uuid = true →
  Inv p0 (es ++ [SessionInitialized tid uuid])
    (onsessioninitialized tid uuid (updateTransport tid (setSessionId uuid) q)).
Proof.
  intros HI Htid Hnone Hh Hu. split; simpl.
  - rewrite length_alter. apply (inv_count _ _ _ HI).
  - apply (inv_options _ _ _ HI).
  - intros sid i Hs. apply lookup_insert_Some in Hs as [[<- <-]|[Hne Hs]].
    + exists (setSessionId uuid t). rewrite list_lookup_alter_eq, Htid. done.
    + destruct (inv_entry _ _ _ HI _ _ Hs) as (t0 & Ht0 & Hsid & Hh0).
      exists t0. split; [|done]. rewrite list_lookup_alter_ne; [done|].
      intros <-. congruence.
  - intros i t' sid Ht' Hsid.
    apply lookup_alter_Some in Ht' as (t0 & Ht0 & [[_ ->]|[-> ->]]).
    + destruct (inv_minted _ _ _ HI i t0 sid Ht0 Hsid) as [? ?].
      split; [done|]. apply elem_of_app. by left.
    + injection Hsid as <-. split; [done|].
      apply elem_of_app. right. apply list_elem_of_singleton. done.
  - intros i t' Ht'.
    apply lookup_alter_Some in Ht' as (t0 & Ht0 & [[_ ->]|[_ ->]]);
      (destruct (inv_origin _ _ _ HI i t0 Ht0) as (r & k & Hb & Hconn);
       exists r, k; split; [by apply builtBy_snoc | done]).
Qed.

Lemma Inv_initial p0 : initial p0 → Inv p0 [] p0.
Proof.
  intros (Hs & Ht & Hc). split; rewrite ?Hs, ?Ht, ?Hc; try done.
Qed.

Theorem reachable_Inv p0 es p : initial p0 → run p0 es = Some p → Inv p0 es p.
Proof.
  intros H0. revert p. induction es as [|e es IH] using rev_ind; intros p Hrun.
  - injection Hrun as <-. by apply Inv_initial.
  - apply run_snoc in Hrun as (q & Hq & Hstep).
    specialize (IH q Hq). apply step_effect in Hstep as [_ Heff].
    destruct Heff as [e p' Hc _ _|req k _ Hk Hh|tid t Ht _|tid t u Ht Hn Hh Hu].
    + by eapply Inv_closes.
    + by apply Inv_create.
    + by eapply Inv_connect.
    + by eapply Inv_initialized.
Qed.

Lemma main_initial config listenOk :
  (∃ k s r port, config = HttpConfig k s r port) → initial (main config listenOk).
Proof. intros (k & s & r & port & ->). by destruct listenOk. Qed.

(** ** Session ids are UUIDs *)

Lemma isUUID_nonempty (s : string) : isUUID s = true → s ≠ EmptyString.
Proof. by destruct s. Qed.

Lemma isUUID_not_inherited (s : string) : isUUID s = true → s ∉ objectPrototypeKeys.
Proof.
  intros Hu Hin. unfold objectPrototypeKeys in Hin.
  repeat (apply elem_of_cons in Hin as [->|Hin]; [by vm_compute in Hu|]).
  by apply elem_of_nil in Hin.
Qed.

(** ** What never changes in a transport *)

Lemma step_transport_stable (p p' : Process) (e : Event) (tid : nat) (t : Transport) :
  step p e = Some p' → transports p !! tid = Some t →
  ∃ t', transports p' !! tid = Some t'
        ∧ connectedTo t' = connectedTo t
        ∧ (∀ sid, sessionId t = Some sid → sessionId t' = Some sid).
Proof.
  intros Hstep Ht. apply step_effect in Hstep as [_ Heff].
  destruct Heff as [e p' Hc _ _|req k _ Hk Hh|i t0 Ht0 _|i t0 u Ht0 Hn Hh Hu].
  - destruct (onlyCloses_lookup_back _ _ _ _ Hc Ht) as (t' & Ht' & [= ? ? ?]).
    exists t'. split; [done|]. split; [done|]. intros sid. congruence.
  - exists t. split; [by apply lookup_app_l_Some | done].
  - simpl. destruct (decide (tid = i)) as [->|Hne].
    + exists (setHandling t). rewrite list_lookup_alter_eq, Ht. done.
    + exists t. by rewrite list_lookup_alter_ne.
  - simpl. destruct (decide (tid = i)) as [->|Hne].
    + exists (setSessionId u t). rewrite list_lookup_alter_eq, Ht.
      split; [done|]. split; [done|]. intros sid. congruence.
    + exists t. by rewrite list_lookup_alter_ne.
Qed.

Lemma run_transport_stable (es : list Event) (p p' : Process) (tid : nat) (t : Transport) :
  run p es = Some p' → transports p !! tid = Some t →
  ∃ t', transports p' !! tid = Some t'
        ∧ connectedTo t' = connectedTo t
        ∧ (∀ sid, sessionId t = Some sid → sessionId t' = Some sid).
Proof.
  revert p t. induction es as [|e es IH]; intros p t Hrun Ht; simpl in Hrun.
  - injection Hrun as <-. eauto.
  - destruct (step p e) as [q|] eqn:Hstep; [|done]. simpl in Hrun.
    destruct (step_transport_stable _ _ _ _ _ Hstep Ht) as (t1 & Ht1 & Hc1 & Hs1).
    destruct (IH _ _ Hrun Ht1) as (t' & Ht' & Hc' & Hs').
    exists t'. split; [done|]. split; [congruence|]. auto.
Qed.

(** ** Visibility of a session *)

Lemma step_registry_shrinks (p p' : Process) (e : Event) :
  step p e = Some p' → (∀ tid u, e ≠ SessionInitialized tid u) →
  sessions p' ⊆ sessions p.
Proof.
  intros Hstep Hne. apply step_effect in Hstep as [_ Heff].
  destruct Heff as [e p' Hc _ _|req k _ Hk Hh|i t0 Ht0 _|i t0 u Ht0 Hn Hh Hu];
    [apply (closes_sessions _ _ Hc) | done | done | by destruct (Hne i u)].
Qed.

Lemma step_registry_insert (p p' : Process) (tid : nat) (u : string) :
  step p (SessionInitialized tid u) = Some p' →
  sessions p' = <[u := tid]> (sessions p).
Proof.
  intros Hstep. apply step_effect in Hstep as [_ Heff].
  inversion Heff as [e q Hc Hne _|?|?|?]; subst; [by destruct (Hne tid u) | done].
Qed.

Lemma handleMcp_registry (p : Process) (req : Request) :
  sessions (handleMcp p req).1 = sessions p.
Proof.
  destruct (handleMcp_state p req) as [->|(k & _ & ->)]; done.
Qed.

(** C5. A session id enters the registry only in the step in which the
    handshake completes and [onsessioninitialized] fires: that step inserts
    exactly the minted id, every other step (the create path of the handler
    included) can only remove entries, so a create path whose handshake never
    completes leaves no entry.  Every entry a lookup can see points to a
    transport that is fully constructed: it has its session id, its server is
    connected and bound to its client handle, and [handleRequest] has been
    invoked on it. *)
Theorem C5_creation_before_visibility (p0 : Process) (es : list Event) (p : Process) :
  initial p0 → run p0 es = Some p →
  (∀ sid tid, sessions p !! sid = Some tid →
     ∃ t apiKey,
       transports p !! tid = Some t
       ∧ sessionId t = Some sid
       ∧ handling t = true
       ∧ connectedTo t
         = createMcpServer {| resendId := tid; resendApiKey := apiKey |} (options p0)
       ∧ SessionInitialized tid sid ∈ es)
  ∧ (∀ e p', step p e = Some p' → (∀ tid u, e ≠ SessionInitialized tid u) →
       sessions p' ⊆ sessions p)
  ∧ (∀ tid u p', step p (SessionInitialized tid u) = Some p' →
       sessions p' = <[u := tid]> (sessions p))
  ∧ (∀ req, sessions (handleMcp p req).1 = sessions p)
  ∧ (∀ tid, (∀ u, SessionInitialized tid u ∉ es) →
       ∀ sid, sessions p !! sid ≠ Some tid).
Proof.
  intros H0 Hrun. pose proof (reachable_Inv _ _ _ H0 Hrun) as HI.
  assert (∀ sid tid, sessions p !! sid = Some tid →
     ∃ t apiKey,
       transports p !! tid = Some t ∧ sessionId t = Some sid ∧ handling t = true
       ∧ connectedTo t
         = createMcpServer {| resendId := tid; resendApiKey := apiKey |} (options p0)
       ∧ SessionInitialized tid sid ∈ es) as Hentry.
  { intros sid tid Hs.
    destruct (inv_entry _ _ _ HI _ _ Hs) as (t & Ht & Hsid & Hh).
    destruct (inv_origin _ _ _ HI _ _ Ht) as (req0 & k & _ & Hconn).
    destruct (inv_minted _ _ _ HI _ _ _ Ht Hsid) as [_ Hin].
    by exists t, k. }
  split; [exact Hentry|].
  split; [intros e p'; apply step_registry_shrinks|].
  split; [intros tid u p'; apply step_registry_insert|].
  split; [apply handleMcp_registry|].
  intros tid Hno sid Hs.
  destruct (Hentry _ _ Hs) as (t & k & _ & _ & _ & _ & Hin). by apply (Hno sid).
Qed.

Lemma C5_creation_before_visibility_witness :
  ∃ p, run (main httpConfig true) abortedHandshake = Some p
       ∧ ∀ sid, sessions p !! sid ≠ Some 0%nat.
Proof.
  eexists. split; [by vm_compute|].
  refine (proj2 (proj2 (proj2 (proj2
    (C5_creation_before_visibility (main httpConfig true) abortedHandshake _ _ _))))
    0%nat _).
  - by vm_compute.
  - by vm_compute.
  - intros u Hin. unfold abortedHandshake in Hin.
    repeat (apply elem_of_cons in Hin as [Hin|Hin]; [discriminate Hin|]).
    by apply elem_of_nil in Hin.
Defined.

(** ** Closing a channel *)

Lemma draws_app (es es' : list Event) : draws (es ++ es') = draws es ++ draws es'.
Proof. apply omap_app. Qed.

Lemma elem_of_draws (u : string) (es : list Event) :
  u ∈ draws es ↔ ∃ tid, SessionInitialized tid u ∈ es.
Proof.
  unfold draws. rewrite list_elem_of_omap. split.
  - intros (e & He & Hu). destruct e; try done. injection Hu as ->. eauto.
  - intros (tid & He). eauto.
Qed.



Lemma onclose_transports (tid : nat) (p : Process) :
  transports (onclose tid p) = transports p.
Proof.
  unfold onclose. destruct (transports p !! tid) as [t|]; [|done].
  destruct (sessionId t) as [sid|]; [|done].
  by destruct (Js.truthy sid && truthyValue (sessionsGet (sessions p) sid)).
Qed.









(** ** Credential isolation *)

Lemma createSession_request (p : Process) (req : Request) (apiKey : string) :
  handleMcp p req = createSession p apiKey →
  Js.truthyOpt (mcpSessionId req) = false
  ∧ method req = "POST" ∧ bodyIsInitialize req = true.
Proof.
  unfold handleMcp, createSession.
  destruct (Js.truthyOpt (mcpSessionId req)) eqn:Hs; cbn [andb negb].
  - destruct (truthyValue (lookupHeader p req)); cbn [negb];
      [by destruct (lookupHeader p req) | done].
  - destruct (String.eqb (method req) "POST") eqn:Hm; cbn [andb]; [|done].
    destruct (bodyIsInitialize req); [|done].
    intros _. by apply String.eqb_eq in Hm.
Qed.

Lemma step_entry_back (p p' : Process) (e : Event) (sid : string) (tid : nat) :
  step p e = Some p' → (∀ i, e ≠ SessionInitialized i sid) →
  sessions p' !! sid = Some tid → sessions p !! sid = Some tid.
Proof.
  intros Hstep Hne Hs.
  destruct e as [req|i|i u|i|s close];
    try (by eapply lookup_weaken;
         [exact Hs | eapply step_registry_shrinks; [exact Hstep | done]]).
  rewrite (step_registry_insert _ _ _ _ Hstep) in Hs.
  rewrite lookup_insert_ne in Hs; [done|]. intros ->. by apply (Hne i).
Qed.

Lemma run_entry_back (es : list Event) (p p' : Process) (sid : string) (tid : nat) :
  run p es = Some p' → sid ∉ draws es →
  sessions p' !! sid = Some tid → sessions p !! sid = Some tid.
Proof.
  revert p. induction es as [|e es IH]; intros p Hrun Hd Hs; simpl in Hrun.
  - by injection Hrun as <-.
  - destruct (step p e) as [q|] eqn:Hstep; [|done]. simpl in Hrun.
    apply (step_entry_back _ _ _ _ _ Hstep).
    + intros i ->. apply Hd. apply elem_of_draws. exists i. apply elem_of_cons. by left.
    + apply (IH q Hrun); [|done]. intros Hin. apply Hd. apply elem_of_draws.
      apply elem_of_draws in Hin as [i Hin]. exists i. apply elem_of_cons. by right.
Qed.

(** C1. In every state the network transport can reach, a request whose
    session header names a registry entry is handed, whatever its
    [Authorization] header, method or body, to the transport stored under that
    id and leaves the process state as it is.  That transport carries this
    very session id; it was built by an initialize request of the run whose
    [Authorization] header reads [Bearer ] followed by [rest], and the key of
    the client handle behind its server is [rest] trimmed, which is not empty.
    Never swapped: after any further events the transport is still there with
    the same id and the same server, and, as long as [randomUUID] has not
    returned this id again ([onsessioninitialized] stores without looking), an
    entry under the id still names this transport and requests with the id are
    still handed to it.  Never shared: no other transport of the process,
    registered or not, open or closed, uses the same client handle, and no
    other registry entry names this transport. *)
Theorem C1_credential_isolation (p0 : Process) (es : list Event) (p : Process)
    (sid : string) (tid : nat) :
  initial p0 → run p0 es = Some p → sessions p !! sid = Some tid →
  ∃ t req0 rest,
    transports p !! tid = Some t
    ∧ sessionId t = Some sid
    ∧ builtBy p0 es tid req0 (Js.trim rest)
    ∧ bodyIsInitialize req0 = true
    ∧ authorization req0 = Some ("Bearer " +:+ rest)
    ∧ Js.trim rest ≠ EmptyString
    ∧ resendApiKey (serverResend (connectedTo t)) = Js.trim rest
    ∧ resendId (serverResend (connectedTo t)) = tid
    ∧ (∀ req, mcpSessionId req = Some sid → handleMcp p req = (p, Handled tid))
    ∧ (∀ es' p', run p es' = Some p' →
         (∃ t', transports p' !! tid = Some t'
                ∧ sessionId t' = Some sid
                ∧ connectedTo t' = connectedTo t)
         ∧ (sid ∉ draws es' →
            ∀ tid', sessions p' !! sid = Some tid' →
              tid' = tid
              ∧ ∀ req, mcpSessionId req = Some sid →
                  handleMcp p' req = (p', Handled tid)))
    ∧ (∀ tid' t', tid' ≠ tid → transports p !! tid' = Some t' →
         resendId (serverResend (connectedTo t'))
         ≠ resendId (serverResend (connectedTo t)))
    ∧ (∀ sid' tid', sid' ≠ sid → sessions p !! sid' = Some tid' → tid' ≠ tid).
Proof.
  intros H0 Hrun Hs. pose proof (reachable_Inv _ _ _ H0 Hrun) as HI.
  destruct (inv_entry _ _ _ HI _ _ Hs) as (t & Ht & Hsid & Hh).
  destruct (inv_origin _ _ _ HI _ _ Ht) as (req0 & k & Hb & Hconn).
  destruct (inv_minted _ _ _ HI _ _ _ Ht Hsid) as [Hu _].
  assert (∃ rest, authorization req0 = Some ("Bearer " +:+ rest)
                  ∧ k = Js.trim rest ∧ k ≠ EmptyString
                  ∧ bodyIsInitialize req0 = true) as (rest & Hauth & -> & Hne & Hinit).
  { destruct Hb as (es1 & es2 & p1 & _ & _ & _ & Hk & Hh1).
    destruct (extractBearerToken_Some _ _ Hk) as (rest & ? & ? & ?).
    destruct (createSession_request _ _ _ Hh1) as (_ & _ & ?). by exists rest. }
  exists t, req0, rest.
  split; [done|]. split; [done|]. split; [done|]. split; [done|].
  split; [done|]. split; [done|].
  split; [by rewrite Hconn|]. split; [by rewrite Hconn|].
  split; [|split; [|split]].
  - intros req Hreq.
    rewrite (handleMcp_with_session p req sid Hreq (isUUID_nonempty _ Hu)).
    by rewrite (sessionsGet_own _ _ _ Hs).
  - intros es' p' Hrun'. split.
    + destruct (run_transport_stable _ _ _ _ _ Hrun' Ht) as (t' & ? & ? & Hkeep).
      exists t'. split; [done|]. split; [by apply Hkeep | done].
    + intros Hd tid' Hs'.
      pose proof (run_entry_back _ _ _ _ _ Hrun' Hd Hs') as Hback.
      assert (tid' = tid) as -> by congruence.
      split; [done|]. intros req Hreq.
      rewrite (handleMcp_with_session p' req sid Hreq (isUUID_nonempty _ Hu)).
      by rewrite (sessionsGet_own _ _ _ Hs').
  - intros tid' t' Hdiff Ht'.
    destruct (inv_origin _ _ _ HI _ _ Ht') as (req' & k' & _ & Hconn').
    by rewrite Hconn, Hconn'.
  - intros sid' tid' Hdiff Hs' ->.
    destruct (inv_entry _ _ _ HI _ _ Hs') as (t1 & Ht1 & Hsid1 & _). congruence.
Qed.

Lemma C1_credential_isolation_witness :
  run (main httpConfig true) twoSessions = Some (stateAfter twoSessions)
  ∧ sessions (stateAfter twoSessions) !! uuid1 = Some 0%nat
  ∧ ∃ t req0 rest,
      transports (stateAfter twoSessions) !! 0%nat = Some t
      ∧ sessionId t = Some uuid1
      ∧ builtBy (main httpConfig true) twoSessions 0 req0 (Js.trim rest)
      ∧ authorization req0 = Some ("Bearer " +:+ rest)
      ∧ resendApiKey (serverResend (connectedTo t)) = Js.trim rest
      ∧ (∀ req, mcpSessionId req = Some uuid1 →
           handleMcp (stateAfter twoSessions) req = (stateAfter twoSessions, Handled 0)).
Proof.
  assert (run (main httpConfig true) twoSessions = Some (stateAfter twoSessions)) as Hrun
    by (by vm_compute).
  assert (sessions (stateAfter twoSessions) !! uuid1 = Some 0%nat) as Hs
    by (by vm_compute).
  split; [exact Hrun|]. split; [exact Hs|].
  destruct (C1_credential_isolation (main httpConfig true) twoSessions
              (stateAfter twoSessions) uuid1 0 (main_initial httpConfig true
                (ex_intro _ None (ex_intro _ _ (ex_intro _ _ (ex_intro _ _ eq_refl)))))
              Hrun Hs)
    as (t & req0 & rest & Ht & Hsid & Hb & _ & Hauth & _ & Hkey & _ & Hroute & _).
  exists t, req0, rest.
  exact (conj Ht (conj Hsid (conj Hb (conj Hauth (conj Hkey Hroute))))).
Defined.

(** ** Freshness of session ids *)

Lemma distinctIds_reachable (p0 : Process) (es : list Event) (p : Process) :
  initial p0 → run p0 es = Some p → NoDup (draws es) → distinctIds p.
Proof.
  intros H0. revert p. induction es as [|e es IH] using rev_ind; intros p Hrun Hnd.
  { injection Hrun as <-. destruct H0 as (_ & Ht & _).
    intros i j ti tj s Hi. by rewrite Ht in Hi. }
  apply run_snoc in Hrun as (q & Hq & Hstep).
  rewrite draws_app in Hnd. apply NoDup_app in Hnd as (Hnd & Hdisj & _).
  specialize (IH q Hq Hnd). pose proof (reachable_Inv _ _ _ H0 Hq) as HI.
  apply step_effect in Hstep as [_ Heff].
  destruct Heff as [e p' Hc _ _|req k _ Hk Hh|tid t Ht _|tid t u Ht Hn Hh Hu];
    intros i j ti tj s Hi Hj Hsi Hsj.
  - destruct (onlyCloses_lookup _ _ _ _ Hc Hi) as (ti0 & Hi0 & [= ? ? ?]).
    destruct (onlyCloses_lookup _ _ _ _ Hc Hj) as (tj0 & Hj0 & [= ? ? ?]).
    apply (IH i j ti0 tj0 s); congruence.
  - simpl in Hi, Hj.
    apply lookup_snoc_Some in Hi as [[_ Hi]|[_ <-]]; [|done].
    apply lookup_snoc_Some in Hj as [[_ Hj]|[_ <-]]; [|done].
    by apply (IH i j ti tj s).
  - simpl in Hi, Hj.
    apply lookup_alter_Some in Hi as (ti0 & Hi0 & Hi).
    apply lookup_alter_Some in Hj as (tj0 & Hj0 & Hj).
    apply (IH i j ti0 tj0 s); [done|done| |].
    + by destruct Hi as [[_ ->]|[_ ->]].
    + by destruct Hj as [[_ ->]|[_ ->]].
  - simpl in Hi, Hj.
    assert (∀ k tk, transports q !! k = Some tk → sessionId tk ≠ Some u) as Hfresh.
    { intros k tk Hk Hsk. destruct (inv_minted _ _ _ HI _ _ _ Hk Hsk) as [_ Hin].
      apply (Hdisj u); [apply elem_of_draws; eauto|]. simpl. apply list_elem_of_singleton.
      done. }
    apply lookup_alter_Some in Hi as (ti0 & Hi0 & Hi).
    apply lookup_alter_Some in Hj as (tj0 & Hj0 & Hj).
    destruct Hi as [[Hni ->]|[-> ->]], Hj as [[Hnj ->]|[-> ->]]; simpl in *.
    + by apply (IH i j ti0 tj0 s).
    + injection Hsj as <-. by destruct (Hfresh i ti0 Hi0).
    + injection Hsi as <-. by destruct (Hfresh j tj0 Hj0).
    + done.
Qed.












(** ** Shutdown *)

Lemma objectKeys_spec (m : gmap string nat) (k : string) :
  k ∈ objectKeys m ↔ is_Some (m !! k).
Proof.
  unfold objectKeys. rewrite list_elem_of_fmap. split.
  - intros ([k' v] & -> & Hin). apply elem_of_map_to_list in Hin. eauto.
  - intros [v Hv]. exists (k, v). split; [done|]. by apply elem_of_map_to_list.
Qed.

(** The loop of [shutdown] empties the registry, whatever the order in which
    the keys are visited and however the calls of [close()] go. *)
Lemma shutdownLoop_drains close (keys : list string) (p : Process) :
  (∀ k, is_Some (sessions p !! k) → k ∈ keys) →
  sessions (shutdownLoop close keys p) = ∅.
Proof.
  revert p. induction keys as [|sid keys IH]; intros p Hdom; simpl.
  - apply map_empty. intros k. apply eq_None_not_Some. intros Hk.
    by apply Hdom, elem_of_nil in Hk.
  - apply IH. simpl. intros k [v Hk].
    apply lookup_delete_Some in Hk as [Hne Hk].
    assert (is_Some (sessions p !! k)) as Hp.
    { exists v. eapply lookup_weaken; [exact Hk|].
      destruct (sessionsGet (sessions p) sid); try done.
      apply (closes_sessions _ _ (onlyCloses_sdkClose _ _ _)). }
    apply Hdom, elem_of_cons in Hp as [->|Hp]; done.
Qed.

Lemma consistent_onlyCloses (p p' : Process) :
  consistent p → onlyCloses p p' → consistent p'.
Proof.
  intros Hcons Hc sid tid Hs.
  pose proof (lookup_weaken _ _ _ _ Hs (closes_sessions _ _ Hc)) as Hq.
  destruct (Hcons _ _ Hq) as (t & Ht & Hsid).
  destruct (onlyCloses_lookup_back _ _ _ _ Hc Ht) as (t' & Ht' & [= ? ? ?]).
  exists t'. split; congruence.
Qed.

Lemma closedIn_setClosed (p : Process) (tid i : nat) :
  closedIn p i ∨ (i = tid ∧ is_Some (transports p !! tid)) →
  closedIn (updateTransport tid setClosed p) i.
Proof.
  unfold closedIn. simpl. intros [(t & Ht & Hcl)|[-> [t Ht]]].
  - destruct (decide (i = tid)) as [->|Hne].
    + exists (setClosed t). by rewrite list_lookup_alter_eq, Ht.
    + exists t. by rewrite list_lookup_alter_ne.
  - exists (setClosed t). by rewrite list_lookup_alter_eq, Ht.
Qed.

Lemma closedIn_sdkClose (r : CloseResult) (p : Process) (tid i : nat) :
  closedIn p i ∨ (i = tid ∧ is_Some (transports p !! tid)) →
  closedIn (sdkClose r tid p) i.
Proof.
  intros H. apply closedIn_setClosed in H. unfold sdkClose.
  destruct (firedOnclose r); [|done]. unfold closedIn. by rewrite onclose_transports.
Qed.

Lemma closedIn_shutdownLoop close (keys : list string) (p : Process) (i : nat) :
  closedIn p i → closedIn (shutdownLoop close keys p) i.
Proof.
  revert p. induction keys as [|sid keys IH]; intros p Hcl; simpl; [done|].
  apply IH. unfold closedIn. simpl.
  destruct (sessionsGet (sessions p) sid); try done.
  apply closedIn_sdkClose. by left.
Qed.

Lemma sdkClose_other_entries (r : CloseResult) (p : Process) (k sid : string)
    (tid : nat) :
  consistent p → sessions p !! k = Some tid → sid ≠ k →
  sessions (sdkClose r tid p) !! sid = sessions p !! sid.
Proof.
  intros Hcons Hk Hne. destruct (Hcons _ _ Hk) as (t & Ht & Hsid).
  unfold sdkClose. destruct (firedOnclose r); [|done].
  unfold onclose. simpl. rewrite list_lookup_alter_eq, Ht. simpl. rewrite Hsid.
  destruct (Js.truthy k && truthyValue (sessionsGet (sessions p) k)); [|done].
  simpl. by rewrite lookup_delete_ne.
Qed.

(** In a consistent registry the loop calls [close()] on the transport of
    every entry. *)
Lemma shutdownLoop_closes_all close (keys : list string) (p : Process) :
  consistent p → (∀ k, is_Some (sessions p !! k) → k ∈ keys) →
  ∀ sid tid, sessions p !! sid = Some tid →
    closedIn (shutdownLoop close keys p) tid.
Proof.
  revert p. induction keys as [|k keys IH]; intros p Hcons Hdom sid tid Hs.
  { assert (sid ∈ @nil string) as Hin by (apply Hdom; eauto). by apply elem_of_nil in Hin. }
  simpl.
  set (p1 := match sessionsGet (sessions p) k with
             | TransportRef tid0 => sdkClose (close tid0) tid0 p
             | _ => p
             end).
  assert (onlyCloses p p1) as Hc1.
  { unfold p1. destruct (sessionsGet (sessions p) k);
      [apply onlyCloses_refl | apply onlyCloses_sdkClose | apply onlyCloses_refl]. }
  set (p2 := setSessions (delete k (sessions p1)) p1).
  assert (onlyCloses p p2) as Hc2
    by (eapply onlyCloses_trans; [exact Hc1 | apply onlyCloses_delete]).
  destruct (decide (sid = k)) as [->|Hne].
  - apply closedIn_shutdownLoop. unfold p2, closedIn. simpl.
    unfold p1. rewrite (sessionsGet_own _ _ _ Hs).
    apply closedIn_sdkClose. right. split; [done|].
    destruct (Hcons _ _ Hs) as (t & Ht & _). eauto.
  - apply (IH p2) with (sid := sid).
    + by apply (consistent_onlyCloses p).
    + intros k' [v Hk'].
      pose proof (lookup_weaken _ _ _ _ Hk' (closes_sessions _ _ Hc2)) as Hp.
      assert (k' ∈ k :: keys) as Hin by (apply Hdom; eauto).
      apply elem_of_cons in Hin as [->|Hin]; [|done].
      simpl in Hk'. by rewrite lookup_delete_eq in Hk'.
    + simpl. rewrite lookup_delete_ne by done. unfold p1.
      destruct (sessions p !! k) as [tid0|] eqn:Hk.
      * rewrite (sessionsGet_own _ _ _ Hk).
        by rewrite (sdkClose_other_entries _ _ k sid tid0).
      * unfold sessionsGet. rewrite Hk. by destruct (bool_decide _).
Qed.

(** Run on its own, the [shutdown] closure of [runHttp] does what graceful
    shutdown asks for: it calls [close()] on every registered transport,
    ignores what those calls throw, empties the registry, stops the listener
    and only then exits with code 0. *)
Lemma shutdown_drains close (p : Process) :
  consistent p →
  sessions (shutdown close p) = ∅
  ∧ listening (shutdown close p) = false
  ∧ exited (shutdown close p) = Some 0
  ∧ (∀ sid tid, sessions p !! sid = Some tid → closedIn (shutdown close p) tid).
Proof.
  intros Hcons. unfold shutdown. simpl. split; [|split; [done|split; [done|]]].
  - apply shutdownLoop_drains. intros k. apply objectKeys_spec.
  - intros sid tid Hs. unfold closedIn. simpl.
    apply (shutdownLoop_closes_all close _ p Hcons) with (sid := sid); [|done].
    intros k. apply objectKeys_spec.
Qed.

(** The listeners are registered at start-up and never change. *)
Lemma step_listeners (p p' : Process) (e : Event) :
  step p e = Some p' → listeners p' = listeners p.
Proof.
  intros Hstep. apply step_effect in Hstep as [_ Heff].
  destruct Heff as [e p' Hc _ _|req k _ Hk Hh|tid t Ht _|tid t u Ht Hn Hh Hu];
    [apply (closes_listeners _ _ Hc) | done | done | done].
Qed.

Lemma run_listeners (es : list Event) (p p' : Process) :
  run p es = Some p' → listeners p' = listeners p.
Proof.
  revert p. induction es as [|e es IH]; intros p Hrun; simpl in Hrun.
  - by injection Hrun as <-.
  - destruct (step p e) as [q|] eqn:Hstep; [|done]. simpl in Hrun.
    rewrite (IH _ Hrun). by apply (step_listeners _ _ e).
Qed.

(** In network mode the listener that [index.ts] registered first answers
    every signal: the process exits with code 0 in the state it was in; the
    [shutdown] closure registered by [runHttp] is never run. *)
Lemma signal_exits_without_draining key sender repliers port listenOk
    (es : list Event) (p : Process) (s : SignalName) close :
  run (main (HttpConfig key sender repliers port) listenOk) es = Some p →
  deliver s close p = processExit 0 p.
Proof.
  intros Hrun. unfold deliver, listenersOf. rewrite (run_listeners _ _ _ Hrun).
  by destruct listenOk, s.
Qed.

(** C2 fails on the program.  With one session open, SIGINT makes the process
    exit with code 0 while the session is still in the registry, its channel
    was never closed and the listener was not stopped: the exit listener of
    [index.ts] runs before the [shutdown] closure of [runHttp]. *)
Lemma C2_signal_exits_before_drain :
  run (main httpConfig true) signalWithOpenSession
  = Some (stateAfter signalWithOpenSession)
  ∧ exited (stateAfter signalWithOpenSession) = Some 0
  ∧ sessions (stateAfter signalWithOpenSession) !! uuid1 = Some 0%nat
  ∧ (closed <$> transports (stateAfter signalWithOpenSession) !! 0%nat) = Some false
  ∧ listening (stateAfter signalWithOpenSession) = true
  ∧ listenersOf SIGINT (main httpConfig true) = [ExitWith 0; HttpShutdown]
  ∧ listenersOf SIGTERM (main httpConfig true) = [ExitWith 0; HttpShutdown].
Proof. by vm_compute. Qed.

(** ** The local transport *)

Lemma localShape_step (server : McpServer) (p p' : Process) (e : Event) :
  localShape server p → step p e = Some p' → localShape server p'.
Proof.
  intros [Hsrv Hch Hs Ht Hr Hl] Hstep. pose proof Hstep as Heff.
  apply step_effect in Heff as [_ Heff].
  destruct Heff as [e p' Hc _ _|req k Hlis _ _|tid t Htid _|tid t u Htid _ _ _];
    [|congruence|by rewrite Ht in Htid|by rewrite Ht in Htid].
  split.
  - by rewrite (closes_servers _ _ Hc).
  - by rewrite (closes_stdio _ _ Hc).
  - apply map_empty. intros k. eapply lookup_weaken_None; [|apply (closes_sessions _ _ Hc)].
    by rewrite Hs.
  - apply (fmap_nil_inv core). by rewrite (closes_cores _ _ Hc), Ht.
  - by rewrite (closes_resendCount _ _ Hc).
  - destruct (listening p') eqn:Hl'; [|done].
    rewrite <-Hl. symmetry. by apply (closes_listening _ _ Hc).
Qed.

Lemma localShape_run (server : McpServer) (es : list Event) (p p' : Process) :
  localShape server p → run p es = Some p' → localShape server p'.
Proof.
  revert p. induction es as [|e es IH]; intros p Hp Hrun; simpl in Hrun.
  - by injection Hrun as <-.
  - destruct (step p e) as [q|] eqn:Hstep; [|done]. simpl in Hrun.
    apply (IH q); [by apply (localShape_step server p q e) | done].
Qed.

(** C9. A process started in stdio mode holds, at start-up and after any
    events, exactly one protocol-server instance, the one [runStdio] built
    from the start-up client handle and connected to the single stdio
    channel; [runStdio] consults no header and cannot fail.  The session
    registry is empty throughout, no HTTP transport object exists, and no
    request can reach the [/mcp] handler, so the registry is never read,
    written or cleared in this mode. *)
Theorem C9_local_transport (apiKey sender : string) (repliers : list string)
    (port : nat) (listenOk : bool) (es : list Event) (p : Process) :
  run (main (StdioConfig apiKey sender repliers port) listenOk) es = Some p →
  servers p
  = [createMcpServer {| resendId := 0; resendApiKey := apiKey |}
       {| senderEmailAddress := sender; replierEmailAddresses := repliers |}]
  ∧ stdioChannels p = servers p
  ∧ sessions p = ∅
  ∧ transports p = []
  ∧ resendCount p = 1%nat
  ∧ (∀ req, step p (HttpRequest req) = None)
  ∧ (∀ e p', step p e = Some p' → sessions p' = ∅ ∧ servers p' = servers p).
Proof.
  intros Hrun.
  set (server := createMcpServer {| resendId := 0; resendApiKey := apiKey |}
       {| senderEmailAddress := sender; replierEmailAddresses := repliers |}).
  assert (localShape server p) as Hp.
  { eapply (localShape_run server es); [|exact Hrun]. by split. }
  pose proof Hp as [Hsrv Hch Hs Ht Hr Hl].
  split; [done|]. split; [congruence|]. split; [done|]. split; [done|].
  split; [done|]. split.
  - intros req. unfold step. rewrite Hl. by destruct (exited p).
  - intros e p' Hstep.
    destruct (localShape_step server p p' e Hp Hstep) as [Hsrv' _ Hs' _ _ _].
    split; congruence.
Qed.

Lemma C9_local_transport_witness :
  servers (main stdioConfig true)
  = [createMcpServer {| resendId := 0; resendApiKey := "re_local" |}
       {| senderEmailAddress := "onboarding@resend.dev"; replierEmailAddresses := [] |}]
  ∧ sessions (main stdioConfig true) = ∅.
Proof.
  destruct (C9_local_transport "re_local" "onboarding@resend.dev" [] 3000 true []
              (main stdioConfig true)) as (H1 & _ & H3 & _).
  - reflexivity.
  - by split.
Defined.

(** * Properties of start-up and of the rest of the transport *)

(** ** White space and [trim] *)

Lemma trimStart_startsClean (s : string) : startsClean (Js.trimStart s) = true.
Proof.
  induction s as [|c s IH]; simpl; [done|].
  destruct (Js.isWhiteSpace c) eqn:Hc; [done|]. simpl. by rewrite Hc.
Qed.

Lemma trimStart_clean (s : string) : startsClean s = true → Js.trimStart s = s.
Proof.
  destruct s as [|c s]; simpl; [done|].
  by destruct (Js.isWhiteSpace c).
Qed.

Lemma trimEnd_empty (s : string) :
  Js.trimEnd s = EmptyString ↔ allWhiteSpace s = true.
Proof.
  induction s as [|c s IH]; simpl; [done|].
  destruct (Js.trimEnd s) as [|d r] eqn:Hr.
  - destruct (Js.isWhiteSpace c); simpl; [|done].
    split; [intros _; by apply IH | done].
  - split; [done|]. intros [_ Hs]%andb_true_iff. by apply IH in Hs.
Qed.

Lemma trimEnd_clean (s : string) : endsClean s = true → Js.trimEnd s = s.
Proof.
  induction s as [|c s IH]; simpl; [done|].
  destruct s as [|d r].
  - simpl. by destruct (Js.isWhiteSpace c).
  - intros H. rewrite (IH H). done.
Qed.

Lemma trimEnd_endsClean (s : string) : endsClean (Js.trimEnd s) = true.
Proof.
  induction s as [|c s IH]; simpl; [done|].
  destruct (Js.trimEnd s) as [|d r] eqn:Hr.
  - destruct (Js.isWhiteSpace c) eqn:Hc; simpl; [done | by rewrite Hc].
  - done.
Qed.

Lemma trimEnd_startsClean (s : string) :
  startsClean s = true → startsClean (Js.trimEnd s) = true.
Proof.
  destruct s as [|c s]; simpl; [done|]. intros Hc.
  destruct (Js.trimEnd s); [|done].
  apply negb_true_iff in Hc. by rewrite Hc; simpl; rewrite Hc.
Qed.

Lemma trim_startsClean (s : string) : startsClean (Js.trim s) = true.
Proof. apply trimEnd_startsClean, trimStart_startsClean. Qed.

Lemma trim_endsClean (s : string) : endsClean (Js.trim s) = true.
Proof. apply trimEnd_endsClean. Qed.

Lemma trim_clean (s : string) : clean s → Js.trim s = s.
Proof.
  intros (_ & Hs & He). unfold Js.trim. by rewrite (trimStart_clean s Hs), trimEnd_clean.
Qed.

Lemma trim_truthy_clean (s : string) : Js.truthy (Js.trim s) = true → clean (Js.trim s).
Proof.
  intros H. split; [by apply truthy_true|].
  split; [apply trim_startsClean | apply trim_endsClean].
Qed.

Lemma trimStart_app_white (a s : string) :
  allWhiteSpace a = true → Js.trimStart (a +:+ s) = Js.trimStart s.
Proof.
  induction a as [|c a IH]; simpl; [done|].
  intros [Hc Ha]%andb_true_iff. rewrite Hc. by apply IH.
Qed.

Lemma trimEnd_app_white (t b : string) :
  t ≠ EmptyString → endsClean t = true → allWhiteSpace b = true →
  Js.trimEnd (t +:+ b) = t.
Proof.
  intros Hne He Hb. induction t as [|c t IH]; [done|].
  destruct t as [|d r].
  - apply trimEnd_empty in Hb. simpl in He. apply negb_true_iff in He.
    change (Js.trimEnd (String c b) = String c EmptyString).
    simpl. by rewrite Hb, He.
  - change (Js.trimEnd (String c (String d r +:+ b)) = String c (String d r)).
    simpl. simpl in IH. rewrite IH; [done|done|exact He].
Qed.

Lemma startsClean_app (t b : string) :
  t ≠ EmptyString → startsClean (t +:+ b) = startsClean t.
Proof. by destruct t. Qed.

(** [trim] removes any white space around a clean value and nothing else. *)
Lemma trim_padded (a t b : string) :
  allWhiteSpace a = true → allWhiteSpace b = true → clean t →
  Js.trim (a +:+ t +:+ b) = t.
Proof.
  intros Ha Hb (Hne & Hs & He). unfold Js.trim.
  rewrite (trimStart_app_white a _ Ha), trimStart_clean;
    [by apply trimEnd_app_white | by rewrite startsClean_app].
Qed.

Lemma trim_blank (s : string) : Js.trim s = EmptyString ↔ allWhiteSpace s = true.
Proof.
  unfold Js.trim. rewrite trimEnd_empty.
  induction s as [|c s IH]; simpl; [done|].
  destruct (Js.isWhiteSpace c) eqn:Hc; simpl; [done|]. by rewrite Hc.
Qed.

(** ** The bearer token *)

(** X1. A token returned by [extractBearerToken] is never empty and never
    starts or ends with white space. *)
Theorem extractBearerToken_clean (req : Request) (token : string) :
  extractBearerToken req = Some token → clean token.
Proof.
  intros H. apply extractBearerToken_Some in H as (rest & _ & -> & Hne).
  apply trim_truthy_clean. by apply truthy_true.
Qed.

Lemma extractBearerToken_clean_witness : clean "re_123".
Proof.
  apply (extractBearerToken_clean (post None (Some "Bearer   re_123  ") true)).
  reflexivity.
Defined.

(** X2. Round trip of the credential: a header made of [Bearer ], any white
    space, a clean token and any white space yields exactly that token. *)
Theorem extractBearerToken_round_trip (req : Request) (a token b : string) :
  clean token → allWhiteSpace a = true → allWhiteSpace b = true →
  authorization req = Some ("Bearer " +:+ a +:+ token +:+ b) →
  extractBearerToken req = Some token.
Proof.
  intros Hc Ha Hb Hauth.
  rewrite (extractBearerToken_app req _ Hauth), (trim_padded a token b Ha Hb Hc).
  destruct Hc as [Hne _]. apply truthy_true in Hne. by rewrite Hne.
Qed.

Lemma extractBearerToken_round_trip_witness :
  extractBearerToken (post None (Some "Bearer   re_123  ") true) = Some "re_123".
Proof.
  apply (extractBearerToken_round_trip _ "  " "re_123" "  "); by vm_compute.
Defined.

(** ** Decimal numbers and [parseInt] *)

Lemma append_empty_r (s : string) : s +:+ EmptyString = s.
Proof.
  induction s as [|c s IH]; [done|].
  change (String c (s +:+ EmptyString) = String c s). by rewrite IH.
Qed.

Lemma digit_not_white (c : ascii) : isDigit c = true → Js.isWhiteSpace c = false.
Proof.
  unfold isDigit, Js.isWhiteSpace. intros [H1 H2]%andb_true_iff.
  apply Nat.leb_le in H1, H2.
  assert ((nat_of_ascii c <=? 13)%nat = false) as -> by (apply Nat.leb_gt; lia).
  assert ((nat_of_ascii c =? 32)%nat = false) as -> by (apply Nat.eqb_neq; lia).
  assert ((nat_of_ascii c =? 160)%nat = false) as -> by (apply Nat.eqb_neq; lia).
  by rewrite andb_false_r.
Qed.

Lemma pretty_N_char_digit (x : N) :
  (x < 10)%N →
  isDigit (pretty_N_char x) = true ∧ digitValue (pretty_N_char x) = Z.of_N x.
Proof.
  intros Hx.
  assert (x = 0 ∨ x = 1 ∨ x = 2 ∨ x = 3 ∨ x = 4 ∨ x = 5 ∨ x = 6 ∨ x = 7 ∨ x = 8
          ∨ x = 9)%N as H by lia.
  repeat (destruct H as [->|H]; [by vm_compute|]). subst. by vm_compute.
Qed.

Lemma pretty_N_go_app (x : N) (s t : string) :
  pretty_N_go x s +:+ t = pretty_N_go x (s +:+ t).
Proof.
  revert s. induction (N.lt_wf_0 x) as [x _ IH]; intros s.
  assert (x = 0 ∨ 0 < x)%N as [->|Hx] by lia; [by rewrite !pretty_N_go_0|].
  rewrite (pretty_N_go_step x s), (pretty_N_go_step x (s +:+ t)) by done.
  rewrite IH by (by apply N.div_lt). reflexivity.
Qed.

Lemma pretty_N_go_allDigits (x : N) (s : string) :
  allDigits s = true → allDigits (pretty_N_go x s) = true.
Proof.
  revert s. induction (N.lt_wf_0 x) as [x _ IH]; intros s Hs.
  assert (x = 0 ∨ 0 < x)%N as [->|Hx] by lia; [by rewrite pretty_N_go_0|].
  rewrite pretty_N_go_step by done. apply IH; [by apply N.div_lt|].
  simpl. rewrite Hs, andb_true_r.
  apply pretty_N_char_digit. by apply N.mod_lt.
Qed.

Lemma readDigits_pretty_N_go (x : N) (s : string) (acc : option Z) :
  default 0 acc = 0 →
  readDigits acc (pretty_N_go x s)
  = readDigits (if decide (x = 0%N) then acc else Some (Z.of_N x)) s.
Proof.
  revert s. induction (N.lt_wf_0 x) as [x _ IH]; intros s Hacc.
  assert (x = 0 ∨ 0 < x)%N as [->|Hx] by lia; [by rewrite pretty_N_go_0|].
  rewrite pretty_N_go_step by done. rewrite IH; [|by apply N.div_lt|done].
  destruct (pretty_N_char_digit (x `mod` 10)) as [Hd Hv]; [by apply N.mod_lt|].
  assert (Z.of_N x = 10 * Z.of_N (x `div` 10) + Z.of_N (x `mod` 10)) as Hx10.
  { rewrite (N.div_mod x 10) at 1 by done. lia. }
  rewrite (decide_False (P := x = 0%N)) by lia.
  simpl. rewrite Hd, Hv. f_equal. f_equal.
  destruct (decide (x `div` 10 = 0)%N) as [H0|H0]; simpl.
  - rewrite Hacc. rewrite Hx10, H0. lia.
  - lia.
Qed.

Lemma pretty_nat_allDigits (n : nat) : allDigits (pretty n) = true.
Proof.
  unfold pretty, pretty_nat, pretty, pretty_N.
  case_decide; [done|]. by apply pretty_N_go_allDigits.
Qed.

Lemma readDigits_pretty_nat (n : nat) (t : string) :
  startsWithDigit t = false →
  readDigits None (pretty n +:+ t) = Some (Z.of_nat n).
Proof.
  intros Ht.
  assert (∀ acc, readDigits (Some acc) t = Some acc) as Hstop.
  { intros acc. destruct t as [|c t]; [done|]. simpl in *. by rewrite Ht. }
  unfold pretty, pretty_nat, pretty, pretty_N. case_decide as H0.
  - assert (n = 0%nat) as -> by lia. simpl. apply Hstop.
  - rewrite pretty_N_go_app. simpl. rewrite readDigits_pretty_N_go by done.
    rewrite decide_False by done. rewrite Hstop. f_equal. lia.
Qed.

Lemma pretty_nat_nonempty (n : nat) : pretty n ≠ EmptyString.
Proof.
  intros H. pose proof (readDigits_pretty_nat n EmptyString eq_refl) as Hr.
  rewrite append_empty_r in Hr. by rewrite H in Hr.
Qed.

Lemma allDigits_startsWithDigit (s : string) :
  allDigits s = true → s ≠ EmptyString → startsWithDigit s = true.
Proof. destruct s; [done|]. simpl. by intros [? _]%andb_true_iff. Qed.

Lemma allDigits_clean (s : string) : allDigits s = true → s ≠ EmptyString → clean s.
Proof.
  intros Hd Hne. split; [done|]. split.
  - destruct s as [|c s]; [done|]. simpl in *. apply andb_true_iff in Hd as [Hc _].
    by rewrite (digit_not_white c Hc).
  - clear Hne. induction s as [|c s IH]; [done|]. simpl in *.
    apply andb_true_iff in Hd as [Hc Hs]. destruct s; [|by apply IH].
    by rewrite (digit_not_white c Hc).
Qed.

Lemma parseInt_startsWithDigit (s : string) :
  startsWithDigit s = true → parseInt s = readDigits None s.
Proof.
  destruct s as [|c s]; [done|]. simpl. intros Hc.
  assert (∃ k, (48 ≤ k ≤ 57)%nat ∧ c = ascii_of_nat k) as (k & Hk & ->).
  { exists (nat_of_ascii c). split; [|by rewrite ascii_nat_embedding].
    unfold isDigit in Hc. apply andb_true_iff in Hc as [H1 H2].
    apply Nat.leb_le in H1, H2. lia. }
  assert (k = 48 ∨ k = 49 ∨ k = 50 ∨ k = 51 ∨ k = 52 ∨ k = 53 ∨ k = 54 ∨ k = 55
          ∨ k = 56 ∨ k = 57)%nat as H by lia.
  repeat (destruct H as [->|H]; [reflexivity|]). subst. reflexivity.
Qed.

(** [parseInt] reads back a decimal numeral, and ignores whatever follows it
    from the first character that is not a digit. *)
Lemma parseInt_pretty (n : nat) (t : string) :
  startsWithDigit t = false → parseInt (pretty n +:+ t) = Some (Z.of_nat n).
Proof.
  intros Ht. rewrite parseInt_startsWithDigit; [by apply readDigits_pretty_nat|].
  pose proof (allDigits_startsWithDigit _ (pretty_nat_allDigits n)
                (pretty_nat_nonempty n)) as H.
  destruct (pretty n); [done|]. exact H.
Qed.

Lemma endsClean_app (s t : string) :
  t ≠ EmptyString → endsClean (s +:+ t) = endsClean t.
Proof.
  intros Ht. induction s as [|c s IH]; [done|].
  change (endsClean (String c (s +:+ t)) = endsClean t). simpl.
  destruct (s +:+ t) eqn:Hst; [|done].
  destruct s; [by simpl in Hst | done].
Qed.

(** The text [parsePort] hands to [parseInt] when the option or variable holds
    a decimal numeral with white space around it and, possibly, a tail that
    starts with something else than a digit. *)
Lemma trim_numeral (a b t : string) (n : nat) :
  allWhiteSpace a = true → allWhiteSpace b = true →
  t = EmptyString ∨ (startsWithDigit t = false ∧ endsClean t = true) →
  Js.trim (a +:+ (pretty n +:+ t) +:+ b) = pretty n +:+ t
  ∧ pretty n +:+ t ≠ EmptyString.
Proof.
  intros Ha Hb Ht.
  pose proof (allDigits_clean _ (pretty_nat_allDigits n) (pretty_nat_nonempty n))
    as (Hne & Hs & He).
  assert (pretty n +:+ t ≠ EmptyString) as Hne'.
  { destruct (pretty n); [done|]. done. }
  split; [|done]. apply trim_padded; [done|done|].
  split; [done|]. split.
  - by rewrite startsClean_app.
  - destruct Ht as [->|[_ Ht]]; [by rewrite append_empty_r|].
    destruct t as [|c t]; [by rewrite append_empty_r|].
    by rewrite endsClean_app.
Qed.

(** ** The port *)

Lemma parsePort_from_arg (D : nat) (parsed : gmap string ArgValue)
    (env : gmap string string) (text : string) (z : Z) :
  parsed !! "port" = Some (ArgString text) →
  Js.trim text ≠ EmptyString → parseInt (Js.trim text) = Some z →
  parsePort D parsed env
  = if (0 <? z) && (z <? 65536) then Z.to_nat z
    else parsePort D (delete "port" parsed) env.
Proof.
  intros Hp Hne Hz. unfold parsePort. rewrite Hp, lookup_delete_eq.
  apply String.eqb_neq in Hne. rewrite Hne. simpl. rewrite Hz. simpl.
  by destruct ((0 <? z) && (z <? 65536)).
Qed.

Lemma parsePort_from_env (D : nat) (parsed : gmap string ArgValue)
    (env : gmap string string) (text : string) (z : Z) :
  (∀ s, parsed !! "port" ≠ Some (ArgString s)) →
  env !! "MCP_PORT" = Some text →
  Js.trim text ≠ EmptyString → parseInt (Js.trim text) = Some z →
  parsePort D parsed env = if (0 <? z) && (z <? 65536) then Z.to_nat z else D.
Proof.
  intros Hp He Hne Hz. unfold parsePort.
  assert (match parsed !! "port" with
          | Some (ArgString port) =>
              if negb (String.eqb (Js.trim port) "") then parseInt (Js.trim port)
              else None
          | _ => None
          end = None) as ->.
  { destruct (parsed !! "port") as [[s| | |]|] eqn:H; try done. by destruct (Hp s). }
  simpl. rewrite He. apply String.eqb_neq in Hne. rewrite Hne. simpl. rewrite Hz.
  simpl. by destruct ((0 <? z) && (z <? 65536)).
Qed.

(** X3. The port [parsePort] returns is the default or a number strictly
    between 0 and 65536, whatever the command line and the environment
    hold. *)
Theorem parsePort_range (D : nat) (parsed : gmap string ArgValue)
    (env : gmap string string) :
  parsePort D parsed env = D
  ∨ 0 < Z.of_nat (parsePort D parsed env) < 65536.
Proof.
  assert (∀ v, isPort v = true → 0 < Z.of_nat (Z.to_nat (default 0 v)) < 65536) as Hr.
  { intros [z|]; [|done]. simpl. intros [H1 H2]%andb_true_iff.
    apply Z.ltb_lt in H1, H2. lia. }
  unfold parsePort.
  set (fromArg := match parsed !! "port" with
                  | Some (ArgString port) =>
                      if negb (String.eqb (Js.trim port) "")
                      then parseInt (Js.trim port) else None
                  | _ => None
                  end).
  set (fromEnv := match env !! "MCP_PORT" with
                  | Some v =>
                      if negb (String.eqb (Js.trim v) "")
                      then parseInt (Js.trim v) else None
                  | None => None
                  end).
  destruct (isPort fromArg) eqn:H1; [right; by apply Hr|].
  destruct (isPort fromEnv) eqn:H2; [right; by apply Hr | by left].
Qed.

(** X4. Round trip of [--port]: for a port number [n] between 1 and 65535,
    the option value made of the decimal numeral of [n] with any white space
    around it gives the port [n], whatever [MCP_PORT] says. *)
Theorem parsePort_arg_round_trip (D n : nat) (parsed : gmap string ArgValue)
    (env : gmap string string) (a b : string) :
  0 < Z.of_nat n < 65536 →
  allWhiteSpace a = true → allWhiteSpace b = true →
  parsed !! "port" = Some (ArgString (a +:+ pretty n +:+ b)) →
  parsePort D parsed env = n.
Proof.
  intros Hn Ha Hb Hp.
  destruct (trim_numeral a b EmptyString n Ha Hb) as [Ht Hne]; [by left|].
  rewrite append_empty_r in Ht, Hne.
  assert (parseInt (pretty n) = Some (Z.of_nat n)) as Hz.
  { rewrite <-(append_empty_r (pretty n)). by apply parseInt_pretty. }
  rewrite <-Ht in Hne, Hz.
  rewrite (parsePort_from_arg D parsed env _ (Z.of_nat n) Hp Hne Hz).
  assert ((0 <? Z.of_nat n) && (Z.of_nat n <? 65536) = true) as ->; [|lia].
  apply andb_true_iff. split; apply Z.ltb_lt; lia.
Qed.

Lemma parsePort_arg_round_trip_witness :
  parsePort 3000 {[ "port" := ArgString " 8080 " ]} {[ "MCP_PORT" := "9000" ]}
  = Z.to_nat 8080.
Proof.
  apply (parsePort_arg_round_trip 3000 (Z.to_nat 8080) _ _ " " " "); [by vm_compute|done|done|].
  by vm_compute.
Defined.

(** X5. [MCP_PORT] is used when [--port] is not given as a string: for a port
    number [n] between 1 and 65535 its decimal numeral, with any white space
    around it, gives the port [n]. *)
Theorem parsePort_env_round_trip (D n : nat) (parsed : gmap string ArgValue)
    (env : gmap string string) (a b : string) :
  0 < Z.of_nat n < 65536 →
  allWhiteSpace a = true → allWhiteSpace b = true →
  (∀ s, parsed !! "port" ≠ Some (ArgString s)) →
  env !! "MCP_PORT" = Some (a +:+ pretty n +:+ b) →
  parsePort D parsed env = n.
Proof.
  intros Hn Ha Hb Hp He.
  destruct (trim_numeral a b EmptyString n Ha Hb) as [Ht Hne]; [by left|].
  rewrite append_empty_r in Ht, Hne.
  assert (parseInt (pretty n) = Some (Z.of_nat n)) as Hz.
  { rewrite <-(append_empty_r (pretty n)). by apply parseInt_pretty. }
  rewrite <-Ht in Hne, Hz.
  rewrite (parsePort_from_env D parsed env _ (Z.of_nat n) Hp He Hne Hz).
  assert ((0 <? Z.of_nat n) && (Z.of_nat n <? 65536) = true) as ->; [|lia].
  apply andb_true_iff. split; apply Z.ltb_lt; lia.
Qed.

Lemma parsePort_env_round_trip_witness :
  parsePort 3000 {[ "http" := ArgBoolean true ]} {[ "MCP_PORT" := "9000" ]}
  = Z.to_nat 9000.
Proof.
  apply (parsePort_env_round_trip 3000 (Z.to_nat 9000) _ _ "" ""); [by vm_compute|done|done| |].
  - intros s. by vm_compute.
  - by vm_compute.
Defined.

(** X6. A [--port] that is the numeral of 0 or of a number above 65535 is
    ignored: the result is what the same command line without [--port]
    gives. *)
Theorem parsePort_out_of_range (D n : nat) (parsed : gmap string ArgValue)
    (env : gmap string string) (a b : string) :
  n = 0%nat ∨ 65536 ≤ Z.of_nat n →
  allWhiteSpace a = true → allWhiteSpace b = true →
  parsed !! "port" = Some (ArgString (a +:+ pretty n +:+ b)) →
  parsePort D parsed env = parsePort D (delete "port" parsed) env.
Proof.
  intros Hn Ha Hb Hp.
  destruct (trim_numeral a b EmptyString n Ha Hb) as [Ht Hne]; [by left|].
  rewrite append_empty_r in Ht, Hne.
  assert (parseInt (pretty n) = Some (Z.of_nat n)) as Hz.
  { rewrite <-(append_empty_r (pretty n)). by apply parseInt_pretty. }
  rewrite <-Ht in Hne, Hz.
  rewrite (parsePort_from_arg D parsed env _ (Z.of_nat n) Hp Hne Hz).
  assert ((0 <? Z.of_nat n) && (Z.of_nat n <? 65536) = false) as ->; [|done].
  apply andb_false_iff. destruct Hn as [->|Hn]; [by left|].
  right. apply Z.ltb_ge. lia.
Qed.

Lemma parsePort_out_of_range_witness :
  parsePort 3000 {[ "port" := ArgString "99999" ]} {[ "MCP_PORT" := "9000" ]}
  = parsePort 3000 (delete "port" {[ "port" := ArgString "99999" ]})
      {[ "MCP_PORT" := "9000" ]}.
Proof.
  apply (parsePort_out_of_range 3000 (Z.to_nat 99999) _ _ "" ""); [right; by vm_compute|done|done|].
  by vm_compute.
Defined.

(** X7. [--port] is read leniently: when the numeral of a port number between
    1 and 65535 is followed by a tail that starts with anything but a digit
    (as in [8080abc] or [80.9]), the tail is ignored and the numeral gives
    the port. *)
Theorem parsePort_ignores_tail (D n : nat) (parsed : gmap string ArgValue)
    (env : gmap string string) (tail : string) :
  0 < Z.of_nat n < 65536 →
  startsWithDigit tail = false → endsClean tail = true →
  parsed !! "port" = Some (ArgString (pretty n +:+ tail)) →
  parsePort D parsed env = n.
Proof.
  intros Hn Hd He Hp.
  destruct (trim_numeral EmptyString EmptyString tail n eq_refl eq_refl)
    as [Ht Hne]; [by right|].
  rewrite append_empty_r in Ht. change (Js.trim (pretty n +:+ tail) = pretty n +:+ tail) in Ht.
  pose proof (parseInt_pretty n tail Hd) as Hz.
  rewrite <-Ht in Hne, Hz.
  rewrite (parsePort_from_arg D parsed env _ (Z.of_nat n) Hp Hne Hz).
  assert ((0 <? Z.of_nat n) && (Z.of_nat n <? 65536) = true) as ->; [|lia].
  apply andb_true_iff. split; apply Z.ltb_lt; lia.
Qed.

Lemma parsePort_ignores_tail_witness :
  parsePort 3000 {[ "port" := ArgString "80.9" ]} ∅ = 80%nat.
Proof.
  apply (parsePort_ignores_tail 3000 80 _ _ ".9"); [by vm_compute|done|done|].
  by vm_compute.
Defined.

(** ** Reply-to addresses *)

Lemma lacks_app (c : ascii) (s t : string) :
  lacks c (s +:+ t) = lacks c s && lacks c t.
Proof.
  induction s as [|d s IH]; [done|].
  change (lacks c (String d (s +:+ t)) = lacks c (String d s) && lacks c t).
  simpl. by rewrite IH, andb_assoc.
Qed.

Lemma lacks_trimStart (c : ascii) (s : string) :
  lacks c s = true → lacks c (Js.trimStart s) = true.
Proof.
  induction s as [|d s IH]; simpl; [done|]. intros [Hd Hs]%andb_true_iff.
  destruct (Js.isWhiteSpace d); [by apply IH|]. simpl. by rewrite Hd, Hs.
Qed.

Lemma lacks_trimEnd (c : ascii) (s : string) :
  lacks c s = true → lacks c (Js.trimEnd s) = true.
Proof.
  induction s as [|d s IH]; simpl; [done|]. intros [Hd Hs]%andb_true_iff.
  specialize (IH Hs). destruct (Js.trimEnd s) as [|e r].
  - destruct (Js.isWhiteSpace d); [done|]. simpl. by rewrite Hd.
  - simpl. rewrite Hd. exact IH.
Qed.

Lemma lacks_trim (c : ascii) (s : string) :
  lacks c s = true → lacks c (Js.trim s) = true.
Proof. intros H. by apply lacks_trimEnd, lacks_trimStart. Qed.

Lemma white_lacks_comma (s : string) :
  allWhiteSpace s = true → lacks "," s = true.
Proof.
  induction s as [|d s IH]; simpl; [done|]. intros [Hd Hs]%andb_true_iff.
  rewrite (IH Hs), andb_true_r. apply negb_true_iff.
  destruct (Ascii.eqb d ",") eqn:He; [|done].
  apply Ascii.eqb_eq in He. subst d. by vm_compute in Hd.
Qed.

Lemma split_nonempty (sep : ascii) (s : string) : split sep s ≠ [].
Proof.
  induction s as [|d s IH]; simpl; [done|].
  destruct (Ascii.eqb d sep); [done|]. by destruct (split sep s).
Qed.

Lemma split_lacks (sep : ascii) (s : string) :
  lacks sep s = true → split sep s = [s].
Proof.
  induction s as [|d s IH]; simpl; [done|]. intros [Hd Hs]%andb_true_iff.
  apply negb_true_iff in Hd. rewrite Hd, (IH Hs). done.
Qed.

Lemma split_app (sep : ascii) (a r : string) :
  lacks sep a = true → split sep (a +:+ String sep r) = a :: split sep r.
Proof.
  induction a as [|d a IH]; intros Ha.
  - change (split sep (String sep r) = EmptyString :: split sep r).
    simpl. by rewrite Ascii.eqb_refl.
  - simpl in Ha. apply andb_true_iff in Ha as [Hd Ha]. apply negb_true_iff in Hd.
    change (split sep (String d (a +:+ String sep r)) = String d a :: split sep r).
    simpl. rewrite Hd, (IH Ha). done.
Qed.

Lemma split_pieces_lack (sep : ascii) (s piece : string) :
  piece ∈ split sep s → lacks sep piece = true.
Proof.
  revert piece. induction s as [|d s IH]; simpl; intros piece Hin.
  - apply list_elem_of_singleton in Hin. by subst.
  - destruct (Ascii.eqb d sep) eqn:Hd.
    + apply elem_of_cons in Hin as [->|Hin]; [done | by apply IH].
    + destruct (split sep s) as [|p ps] eqn:Hs; [by destruct (split_nonempty sep s)|].
      apply elem_of_cons in Hin as [->|Hin].
      * simpl. rewrite Hd. simpl. apply IH. apply elem_of_cons. by left.
      * apply IH. apply elem_of_cons. by right.
Qed.

Lemma split_join (sep : ascii) (pieces : list string) :
  pieces ≠ [] → Forall (λ p, lacks sep p = true) pieces →
  split sep (join (String sep EmptyString) pieces) = pieces.
Proof.
  induction pieces as [|p ps IH]; [done|]. intros _ [Hp Hps]%Forall_cons.
  destruct ps as [|q ps]; [by apply split_lacks|].
  change (split sep (p +:+ String sep (join (String sep EmptyString) (q :: ps)))
          = p :: q :: ps).
  rewrite (split_app sep p _ Hp), IH; done.
Qed.

Lemma allWhiteSpace_app (s t : string) :
  allWhiteSpace (s +:+ t) = allWhiteSpace s && allWhiteSpace t.
Proof.
  induction s as [|d s IH]; [done|].
  change (allWhiteSpace (String d (s +:+ t))
          = allWhiteSpace (String d s) && allWhiteSpace t).
  simpl. by rewrite IH, andb_assoc.
Qed.

Lemma clean_not_white (s : string) : clean s → allWhiteSpace s = false.
Proof.
  intros (Hne & Hs & _). destruct s as [|c s]; [done|]. simpl in *.
  apply negb_true_iff in Hs. by rewrite Hs.
Qed.

Lemma parseReplierAddresses_env (parsed : gmap string ArgValue)
    (env : gmap string string) :
  (∀ s, parsed !! "reply-to" ≠ Some (ArgString s)) →
  (∀ xs, parsed !! "reply-to" ≠ Some (ArgArray xs)) →
  parseReplierAddresses parsed env
  = match env !! "REPLY_TO_EMAIL_ADDRESSES" with
    | Some v =>
        if Js.truthy (Js.trim v)
        then filter (λ a, Js.truthy a = true) (Js.trim <$> split "," v)
        else []
    | None => []
    end.
Proof.
  intros Hs Ha. unfold parseReplierAddresses.
  destruct (parsed !! "reply-to") as [[s| | |xs]|] eqn:H; try done.
  - by destruct (Hs s).
  - by destruct (Ha xs).
Qed.

(** X8. When the command line gives no reply-to address, every address taken
    from [REPLY_TO_EMAIL_ADDRESSES] is non-empty, has no white space around it
    and contains no comma. *)
Theorem parseReplierAddresses_env_clean (parsed : gmap string ArgValue)
    (env : gmap string string) (address : string) :
  (∀ s, parsed !! "reply-to" ≠ Some (ArgString s)) →
  (∀ xs, parsed !! "reply-to" ≠ Some (ArgArray xs)) →
  address ∈ parseReplierAddresses parsed env →
  clean address ∧ lacks "," address = true.
Proof.
  intros Hs Ha. rewrite (parseReplierAddresses_env parsed env Hs Ha).
  destruct (env !! "REPLY_TO_EMAIL_ADDRESSES") as [v|]; [|by intros ?%elem_of_nil].
  destruct (Js.truthy (Js.trim v)); [|by intros ?%elem_of_nil].
  intros [Ht Hin]%list_elem_of_filter.
  apply list_elem_of_fmap in Hin as (piece & -> & Hin).
  split; [by apply trim_truthy_clean|].
  by apply lacks_trim, (split_pieces_lack "," v).
Qed.

Lemma parseReplierAddresses_env_clean_witness :
  clean "b@y.dev" ∧ lacks "," "b@y.dev" = true.
Proof.
  apply (parseReplierAddresses_env_clean ∅
           {[ "REPLY_TO_EMAIL_ADDRESSES" := " a@x.dev , ,b@y.dev," ]}).
  - intros s. by vm_compute.
  - intros xs. by vm_compute.
  - apply (bool_decide_unpack _). by vm_compute.
Defined.

(** X9. Round trip of [REPLY_TO_EMAIL_ADDRESSES]: a list of addresses that are
    non-empty, free of surrounding white space and of commas, written with
    commas between them and any white space around each (each address with
    white space of its own), is read back as that list when the command line
    gives no reply-to address. *)
Theorem parseReplierAddresses_round_trip (parsed : gmap string ArgValue)
    (env : gmap string string) (entries : list Padded) :
  (∀ s, parsed !! "reply-to" ≠ Some (ArgString s)) →
  (∀ xs, parsed !! "reply-to" ≠ Some (ArgArray xs)) →
  Forall wellPadded entries →
  env !! "REPLY_TO_EMAIL_ADDRESSES" = Some (join "," (written <$> entries)) →
  parseReplierAddresses parsed env = padAddress <$> entries.
Proof.
  intros Hs Harr Hall Henv.
  rewrite (parseReplierAddresses_env parsed env Hs Harr), Henv.
  destruct entries as [|x xs]; [done|].
  set (pieces := written <$> x :: xs).
  assert (Js.truthy (Js.trim (join "," pieces)) = true) as ->.
  { apply truthy_true. rewrite trim_blank. apply not_true_iff_false.
    apply Forall_cons in Hall as [(_ & _ & Hx & _) _]. unfold pieces. rewrite fmap_cons.
    assert (allWhiteSpace (written x) = false) as Hw.
    { unfold written.
      by rewrite !allWhiteSpace_app, (clean_not_white _ Hx), andb_false_r. }
    destruct (written <$> xs) as [|q qs]; [done|].
    change (allWhiteSpace (written x +:+ "," +:+ join "," (q :: qs)) = false).
    by rewrite allWhiteSpace_app, Hw. }
  rewrite (split_join "," pieces); [|done|].
  - clear Henv. unfold pieces. clear pieces.
    induction (x :: xs) as [|y ys IH]; [done|].
    apply Forall_cons in Hall as [(Ha & Hb & Hy & _) Hys]. rewrite !fmap_cons.
    unfold written at 1.
    rewrite (trim_padded _ _ _ Ha Hb Hy), filter_cons_True;
      [by rewrite (IH Hys) | by apply truthy_true, Hy].
  - unfold pieces. apply Forall_fmap. eapply Forall_impl; [exact Hall|].
    intros y (Ha & Hb & _ & Hy). simpl. unfold written.
    by rewrite !lacks_app, Hy, (white_lacks_comma _ Ha), (white_lacks_comma _ Hb).
Qed.

Lemma parseReplierAddresses_round_trip_witness :
  parseReplierAddresses ∅ {[ "REPLY_TO_EMAIL_ADDRESSES" := " a@x.com ,b@y.dev" ]}
  = ["a@x.com"; "b@y.dev"].
Proof.
  apply (parseReplierAddresses_round_trip ∅ _
           [ {| padLeft := " "; padAddress := "a@x.com"; padRight := " " |};
             {| padLeft := ""; padAddress := "b@y.dev"; padRight := "" |} ]).
  - intros s. by vm_compute.
  - intros xs. by vm_compute.
  - repeat constructor; by vm_compute.
  - by vm_compute.
Defined.

(** ** The configuration *)

Lemma trim_truthy_white (s : string) :
  Js.truthy (Js.trim s) = negb (allWhiteSpace s).
Proof.
  destruct (allWhiteSpace s) eqn:Hw.
  - apply trim_blank in Hw. by rewrite Hw.
  - apply truthy_true. rewrite trim_blank. by rewrite Hw.
Qed.

Lemma white_not_truthy_trim (s : string) :
  negb (Js.truthy s) || negb (Js.truthy (Js.trim s)) = allWhiteSpace s.
Proof.
  rewrite trim_truthy_white, negb_involutive.
  destruct s as [|c s]; [done|]. done.
Qed.

(** X10. A stdio configuration always carries a usable key: it is not empty,
    has no white space around it, and is the trimmed [--key] string when one
    is given, else the trimmed [RESEND_API_KEY]. *)
Theorem resolveConfig_stdio_key (D : nat) (parsed : gmap string ArgValue)
    (env : gmap string string) (key sender : string) (repliers : list string)
    (port : nat) :
  resolveConfig D parsed env = ResolveOk (StdioConfig key sender repliers port) →
  clean key
  ∧ isTrue (parsed !! "http") = false
  ∧ ((∃ raw, parsed !! "key" = Some (ArgString raw) ∧ key = Js.trim raw)
     ∨ ((∀ raw, parsed !! "key" ≠ Some (ArgString raw))
        ∧ ∃ raw, env !! "RESEND_API_KEY" = Some raw ∧ key = Js.trim raw)).
Proof.
  unfold resolveConfig.
  set (apiKey := match parsed !! "key" with
                 | Some (ArgString k) => Some k
                 | _ => env !! "RESEND_API_KEY"
                 end).
  assert ((∃ raw, apiKey = Some raw ∧
                  ((parsed !! "key" = Some (ArgString raw))
                   ∨ ((∀ r, parsed !! "key" ≠ Some (ArgString r))
                      ∧ env !! "RESEND_API_KEY" = Some raw)))
          ∨ apiKey = None) as Hsrc.
  { unfold apiKey. destruct (parsed !! "key") as [[k| | |]|] eqn:Hk;
      try (destruct (env !! "RESEND_API_KEY") as [raw|];
           [left; exists raw; split; [done|]; right; split; [by intros r|done]
           | by right]).
    left. exists k. split; [done|]. by left. }
  destruct (isTrue (parsed !! "http")) eqn:Hhttp; simpl; [done|].
  destruct Hsrc as [(raw & -> & Hraw)| ->]; simpl; [|done].
  destruct (negb (Js.truthy raw) || negb (Js.truthy (Js.trim raw))) eqn:Hb; [done|].
  intros [= <- _ _ _]. apply orb_false_iff in Hb as [_ Ht].
  apply negb_false_iff in Ht.
  split; [by apply trim_truthy_clean|]. split; [done|].
  destruct Hraw as [Hk|[Hk He]]; [left; eauto | right; eauto].
Qed.

Lemma resolveConfig_stdio_key_witness : clean "re_abc".
Proof.
  apply (resolveConfig_stdio_key 3000 {[ "key" := ArgString "  re_abc  " ]} ∅
           "re_abc" "" [] 3000).
  by vm_compute.
Defined.

(** X11. [resolveConfig] fails in one case only, with one message: the
    transport is stdio and the key in force (the [--key] string if there is
    one, else [RESEND_API_KEY]) is missing or consists of white space.  No
    value of the port, the sender or the reply-to addresses makes it fail. *)
Theorem resolveConfig_error_iff (D : nat) (parsed : gmap string ArgValue)
    (env : gmap string string) (error : string) :
  resolveConfig D parsed env = ResolveError error
  ↔ error = noApiKeyMessage
    ∧ isTrue (parsed !! "http") = false
    ∧ ((∃ raw, parsed !! "key" = Some (ArgString raw) ∧ allWhiteSpace raw = true)
       ∨ ((∀ raw, parsed !! "key" ≠ Some (ArgString raw))
          ∧ ∀ raw, env !! "RESEND_API_KEY" = Some raw → allWhiteSpace raw = true)).
Proof.
  unfold resolveConfig.
  destruct (isTrue (parsed !! "http")) eqn:Hhttp; simpl.
  { split; [done | by intros (_ & ? & _)]. }
  assert (∀ apiKey : option string,
    negb (Js.truthyOpt apiKey) || negb (Js.truthyOpt (Js.trim <$> apiKey))
    = match apiKey with Some raw => allWhiteSpace raw | None => true end) as Hblank.
  { intros [raw|]; [|done]. apply white_not_truthy_trim. }
  rewrite Hblank.
  set (apiKey := match parsed !! "key" with
                 | Some (ArgString k) => Some k
                 | _ => env !! "RESEND_API_KEY"
                 end).
  set (blank := match apiKey with Some raw => allWhiteSpace raw | None => true end).
  assert (blank = true
          ↔ (∃ raw, parsed !! "key" = Some (ArgString raw) ∧ allWhiteSpace raw = true)
            ∨ ((∀ raw, parsed !! "key" ≠ Some (ArgString raw))
               ∧ ∀ raw, env !! "RESEND_API_KEY" = Some raw → allWhiteSpace raw = true))
    as Hd.
  { unfold blank, apiKey. destruct (parsed !! "key") as [[k| | |]|] eqn:Hk.
    1: { split; [intros Hw; left; eauto|].
         intros [(raw & [= <-] & Hw)|[Hno _]]; [done | by destruct (Hno k)]. }
    all: split;
      [ intros Hb; right; split; [by intros r|]; intros raw He; by rewrite He in Hb
      | intros [(r & Hr & _)|[_ Hall]]; [done|];
        destruct (env !! "RESEND_API_KEY") as [raw|]; [by apply Hall | done] ]. }
  destruct blank; simpl.
  - split; [intros [= <-]; split; [done|]; split; [done|]; by apply Hd|].
    by intros (-> & _).
  - split; [done|]. intros (_ & _ & Hdisj). apply Hd in Hdisj. done.
Qed.

(** X12. A [--key] string that is empty or white space hides the environment:
    in stdio mode the result is the missing-key error even when
    [RESEND_API_KEY] holds a valid key. *)
Theorem resolveConfig_blank_key_hides_env (D : nat) (parsed : gmap string ArgValue)
    (env : gmap string string) (raw : string) :
  parsed !! "key" = Some (ArgString raw) → allWhiteSpace raw = true →
  isTrue (parsed !! "http") = false →
  resolveConfig D parsed env = ResolveError noApiKeyMessage.
Proof.
  intros Hk Hw Hhttp. unfold resolveConfig. rewrite Hk, Hhttp. simpl.
  by rewrite white_not_truthy_trim, Hw.
Qed.

Lemma resolveConfig_blank_key_hides_env_witness :
  resolveConfig 3000 {[ "key" := ArgString "  " ]} {[ "RESEND_API_KEY" := "re_env" ]}
  = ResolveError noApiKeyMessage.
Proof.
  by apply (resolveConfig_blank_key_hides_env 3000 _ _ "  ").
Defined.

(** X13. With [--http] the configuration always resolves, key or no key; the
    key it records, if any, is trimmed and may be empty. *)
Theorem resolveConfig_http_lenient (D : nat) (parsed : gmap string ArgValue)
    (env : gmap string string) :
  isTrue (parsed !! "http") = true →
  ∃ key sender,
    resolveConfig D parsed env
    = ResolveOk (HttpConfig key sender (parseReplierAddresses parsed env)
                   (parsePort D parsed env))
    ∧ (∀ k, key = Some k → startsClean k = true ∧ endsClean k = true).
Proof.
  intros Hhttp. unfold resolveConfig. rewrite Hhttp. simpl.
  eexists _, _. split; [reflexivity|].
  intros k Hk. apply fmap_Some in Hk as (raw & _ & ->).
  split; [apply trim_startsClean | apply trim_endsClean].
Qed.

Lemma resolveConfig_http_lenient_witness :
  ∃ key sender,
    resolveConfig 3000 {[ "http" := ArgBoolean true ]} ∅
    = ResolveOk (HttpConfig key sender
                   (parseReplierAddresses {[ "http" := ArgBoolean true ]} ∅)
                   (parsePort 3000 {[ "http" := ArgBoolean true ]} ∅)).
Proof.
  destruct (resolveConfig_http_lenient 3000 {[ "http" := ArgBoolean true ]} ∅)
    as (key & sender & H & _); [done|]. by exists key, sender.
Defined.

Lemma resolveConfig_error_stdio (D : nat) (parsed : gmap string ArgValue)
    (env : gmap string string) (error : string) :
  resolveConfig D parsed env = ResolveError error →
  error = noApiKeyMessage ∧ isTrue (parsed !! "http") = false.
Proof.
  unfold resolveConfig. intros Hr.
  destruct (isTrue (parsed !! "http")); simpl in Hr; [done|].
  destruct (negb _ || negb _); [|done]. by injection Hr as <-.
Qed.

(** X14. [resolveConfigOrExit] is decided by the help flags and by
    [resolveConfig]: when [--help] or [-h] is set it exits with code 0 after
    the help text, whatever else is wrong; when none is set and [resolveConfig]
    fails it exits with code 1 after [Error: ] and the message; when none is
    set and [resolveConfig] succeeds it returns that configuration.
    Conversely it exits in these two ways only (and with code 1 only for the
    missing key of the stdio transport), and a configuration it returns is the
    one [resolveConfig] computed with no help flag set. *)
Theorem resolveConfigOrExit_outcomes (D : nat) (argv : gmap string ArgValue)
    (env : gmap string string) :
  (isTrue (argv !! "help") || isTrue (argv !! "h") = true →
   resolveConfigOrExit D argv env = ExitedAtStartup 0 [HELP_TEXT])
  ∧ (isTrue (argv !! "help") || isTrue (argv !! "h") = false →
     ∀ error, resolveConfig D argv env = ResolveError error →
       resolveConfigOrExit D argv env = ExitedAtStartup 1 ["Error: " +:+ error])
  ∧ (isTrue (argv !! "help") || isTrue (argv !! "h") = false →
     ∀ config, resolveConfig D argv env = ResolveOk config →
       resolveConfigOrExit D argv env = Configured config)
  ∧ (∀ code out, resolveConfigOrExit D argv env = ExitedAtStartup code out →
       (code = 0 ∧ out = [HELP_TEXT]
        ∧ isTrue (argv !! "help") || isTrue (argv !! "h") = true)
       ∨ (code = 1 ∧ out = ["Error: " +:+ noApiKeyMessage]
          ∧ isTrue (argv !! "help") || isTrue (argv !! "h") = false
          ∧ isTrue (argv !! "http") = false
          ∧ resolveConfig D argv env = ResolveError noApiKeyMessage))
  ∧ (∀ config, resolveConfigOrExit D argv env = Configured config →
       isTrue (argv !! "help") || isTrue (argv !! "h") = false
       ∧ resolveConfig D argv env = ResolveOk config).
Proof.
  unfold resolveConfigOrExit.
  destruct (isTrue (argv !! "help") || isTrue (argv !! "h")) eqn:Hhelp.
  { split; [done|]. split; [done|]. split; [done|]. split; [|done].
    intros code out [= <- <-]. by left. }
  split; [done|].
  destruct (resolveConfig D argv env) as [config|error] eqn:Hr.
  - split; [done|]. split; [by intros _ c [= <-]|]. split; [done|].
    by intros c [= <-].
  - split; [by intros _ e [= <-]|]. split; [done|]. split; [|done].
    intros code out [= <- <-]. right.
    destruct (resolveConfig_error_stdio D argv env error Hr) as [-> Hhttp]. done.
Qed.

Lemma resolveConfigOrExit_outcomes_witness :
  resolveConfigOrExit 3000 {[ "h" := ArgBoolean true ]} ∅
  = ExitedAtStartup 0 [HELP_TEXT]
  ∧ resolveConfigOrExit 3000 ∅ ∅
    = ExitedAtStartup 1 ["Error: " +:+ noApiKeyMessage]
  ∧ resolveConfigOrExit 3000 {[ "key" := ArgString "re_abc" ]} ∅
    = Configured (StdioConfig "re_abc" "" [] 3000).
Proof.
  split; [|split].
  - by apply (resolveConfigOrExit_outcomes 3000 {[ "h" := ArgBoolean true ]} ∅).
  - apply (resolveConfigOrExit_outcomes 3000 ∅ ∅); by vm_compute.
  - apply (resolveConfigOrExit_outcomes 3000 {[ "key" := ArgString "re_abc" ]} ∅);
      by vm_compute.
Defined.

(** ** From the command line to the running transport *)

Lemma resolveConfig_stdio_shape (D : nat) (parsed : gmap string ArgValue)
    (env : gmap string string) (config : CliConfig) :
  resolveConfig D parsed env = ResolveOk config →
  isTrue (parsed !! "http") = false →
  ∃ key sender repliers port,
    config = StdioConfig key sender repliers port ∧ clean key.
Proof.
  unfold resolveConfig. intros Hr Hhttp. rewrite Hhttp in Hr. simpl in Hr.
  destruct (match parsed !! "key" with
            | Some (ArgString k) => Some k
            | _ => env !! "RESEND_API_KEY"
            end) as [raw|]; simpl in Hr; [|done].
  destruct (negb (Js.truthy raw) || negb (Js.truthy (Js.trim raw))) eqn:Hb; [done|].
  injection Hr as <-. eexists _, _, _, _. split; [reflexivity|].
  apply orb_false_iff in Hb as [_ Ht]. apply negb_false_iff in Ht.
  by apply trim_truthy_clean.
Qed.

(** X15. Started without [--http], the program either quits at start-up or
    runs the local transport with exactly one protocol server, whose client
    handle carries a key that is not empty and has no white space around it;
    this stays so after any events, and the session registry stays empty. *)
Theorem program_stdio (D : nat) (argv : gmap string ArgValue)
    (env : gmap string string) (listenOk : bool) (p p' : Process)
    (es : list Event) :
  program D argv env listenOk = Running p →
  isTrue (argv !! "http") = false →
  run p es = Some p' →
  ∃ key opts,
    clean key
    ∧ servers p' = [createMcpServer {| resendId := 0; resendApiKey := key |} opts]
    ∧ stdioChannels p' = servers p'
    ∧ sessions p' = ∅
    ∧ transports p' = [].
Proof.
  unfold program, resolveConfigOrExit. intros Hp Hhttp Hrun.
  destruct (isTrue (argv !! "help") || isTrue (argv !! "h")); [done|].
  destruct (resolveConfig D argv env) as [config|] eqn:Hr; [|done].
  injection Hp as <-.
  destruct (resolveConfig_stdio_shape D argv env config Hr Hhttp)
    as (key & sender & repliers & port & -> & Hkey).
  exists key, {| senderEmailAddress := sender; replierEmailAddresses := repliers |}.
  split; [done|].
  assert (localShape
            (createMcpServer {| resendId := 0; resendApiKey := key |}
               {| senderEmailAddress := sender; replierEmailAddresses := repliers |})
            p') as [Hsrv Hch Hs Ht _ _].
  { eapply localShape_run; [|exact Hrun]. by split. }
  split; [done|]. split; [congruence|]. done.
Qed.

Lemma program_stdio_witness :
  ∃ key opts,
    clean key
    ∧ servers (main (StdioConfig "re_abc" "" [] 3000) true)
      = [createMcpServer {| resendId := 0; resendApiKey := key |} opts].
Proof.
  destruct (program_stdio 3000 {[ "key" := ArgString "  re_abc  " ]} ∅ true
              (main (StdioConfig "re_abc" "" [] 3000) true)
              (main (StdioConfig "re_abc" "" [] 3000) true) [])
    as (key & opts & Hk & Hs & _); [by vm_compute|done|done|].
  by exists key, opts.
Defined.

(** X16. With [--http] the key given at start-up has no effect: whatever
    [--key] and [RESEND_API_KEY] hold, the program is the one started without
    them. *)
Theorem program_http_ignores_startup_key (D : nat) (argv : gmap string ArgValue)
    (env : gmap string string) (listenOk : bool) (argKey : ArgValue)
    (envKey : string) :
  isTrue (argv !! "http") = true →
  program D (<["key" := argKey]> argv) (<["RESEND_API_KEY" := envKey]> env) listenOk
  = program D (delete "key" argv) (delete "RESEND_API_KEY" env) listenOk.
Proof.
  intros Hhttp.
  unfold program, resolveConfigOrExit, resolveConfig, parsePort,
    parseReplierAddresses.
  rewrite !(lookup_insert_ne argv "key" "help"), !(lookup_delete_ne argv "key" "help"),
    !(lookup_insert_ne argv "key" "h"), !(lookup_delete_ne argv "key" "h"),
    !(lookup_insert_ne argv "key" "http"), !(lookup_delete_ne argv "key" "http"),
    !(lookup_insert_ne argv "key" "sender"), !(lookup_delete_ne argv "key" "sender"),
    !(lookup_insert_ne argv "key" "reply-to"),
    !(lookup_delete_ne argv "key" "reply-to"),
    !(lookup_insert_ne argv "key" "port"), !(lookup_delete_ne argv "key" "port"),
    !(lookup_insert_ne env "RESEND_API_KEY" "SENDER_EMAIL_ADDRESS"),
    !(lookup_delete_ne env "RESEND_API_KEY" "SENDER_EMAIL_ADDRESS"),
    !(lookup_insert_ne env "RESEND_API_KEY" "REPLY_TO_EMAIL_ADDRESSES"),
    !(lookup_delete_ne env "RESEND_API_KEY" "REPLY_TO_EMAIL_ADDRESSES"),
    !(lookup_insert_ne env "RESEND_API_KEY" "MCP_PORT"),
    !(lookup_delete_ne env "RESEND_API_KEY" "MCP_PORT") by done.
  rewrite Hhttp. simpl.
  by destruct (isTrue (argv !! "help") || isTrue (argv !! "h")).
Qed.

Lemma program_http_ignores_startup_key_witness :
  program 3000 (<["key" := ArgString "re_cli"]> {[ "http" := ArgBoolean true ]})
    (<["RESEND_API_KEY" := "re_env"]> ∅) true
  = program 3000 (delete "key" {[ "http" := ArgBoolean true ]})
      (delete "RESEND_API_KEY" ∅) true.
Proof.
  by apply (program_http_ignores_startup_key 3000 {[ "http" := ArgBoolean true ]}).
Defined.

(** X17. In network mode every transport ever built, registered or not, is
    connected to a server that uses the start-up options (default sender and
    reply-to addresses), and the key of its client handle is the bearer token
    of a request of the run. *)
Theorem http_sessions_options_and_keys (key : option string) (sender : string)
    (repliers : list string) (port : nat) (listenOk : bool) (es : list Event)
    (p : Process) (tid : nat) (t : Transport) :
  run (main (HttpConfig key sender repliers port) listenOk) es = Some p →
  transports p !! tid = Some t →
  serverOptions (connectedTo t)
  = {| senderEmailAddress := sender; replierEmailAddresses := repliers |}
  ∧ ∃ req,
      HttpRequest req ∈ es
      ∧ extractBearerToken req = Some (resendApiKey (serverResend (connectedTo t))).
Proof.
  intros Hrun Ht.
  assert (initial (main (HttpConfig key sender repliers port) listenOk)) as H0
    by (by destruct listenOk).
  destruct (inv_origin _ _ _ (reachable_Inv _ _ _ H0 Hrun) _ _ Ht)
    as (req & k & (es1 & es2 & p1 & -> & _ & _ & Hk & _) & Hconn).
  rewrite Hconn. split; [by destruct listenOk|].
  exists req. split; [|done]. apply elem_of_app. right. apply elem_of_cons. by left.
Qed.

Lemma http_sessions_options_and_keys_witness :
  ∃ req, HttpRequest req ∈ twoSessions ∧ extractBearerToken req = Some "secretB".
Proof.
  edestruct (http_sessions_options_and_keys None "onboarding@resend.dev" [] 3000
               true twoSessions (stateAfter twoSessions) 1) as [_ H].
  - by vm_compute.
  - by vm_compute.
  - exact H.
Defined.

(** ** More on the network transport *)

(** X18. Requests that are answered at once (400, 401, 404), forwarded to an
    existing session, or that throw leave the process as it was.  Only a
    create-path request with a valid token allocates, and then exactly one
    client handle bound to that token, one server and one transport, without
    touching the registry. *)
Theorem handleMcp_allocation (p : Process) (req : Request) :
  (∀ r, (handleMcp p req).2 = Responded r → (handleMcp p req).1 = p)
  ∧ (∀ tid, (handleMcp p req).2 = Handled tid → (handleMcp p req).1 = p)
  ∧ ((handleMcp p req).2 = Thrown → (handleMcp p req).1 = p)
  ∧ (∀ tid, (handleMcp p req).2 = Connecting tid →
       tid = length (transports p)
       ∧ ∃ apiKey,
           extractBearerToken req = Some apiKey
           ∧ transports (handleMcp p req).1
             = transports p
               ++ [{| sessionId := None;
                      connectedTo :=
                        createMcpServer
                          {| resendId := resendCount p; resendApiKey := apiKey |}
                          (options p);
                      handling := false; closed := false |}]
           ∧ servers (handleMcp p req).1
             = servers p
               ++ [createMcpServer
                     {| resendId := resendCount p; resendApiKey := apiKey |}
                     (options p)]
           ∧ resendCount (handleMcp p req).1 = S (resendCount p)
           ∧ sessions (handleMcp p req).1 = sessions p).
Proof.
  unfold handleMcp.
  destruct (Js.truthyOpt (mcpSessionId req) && truthyValue (lookupHeader p req)).
  { destruct (lookupHeader p req); simpl; repeat split; done. }
  destruct (negb (Js.truthyOpt (mcpSessionId req)) && String.eqb (method req) "POST"
            && bodyIsInitialize req).
  { destruct (extractBearerToken req) as [k|]; simpl; [|repeat split; done].
    split; [done|]. split; [done|]. split; [done|].
    intros tid [= <-]. split; [done|]. by exists k. }
  destruct (Js.truthyOpt (mcpSessionId req) && negb (truthyValue (lookupHeader p req)));
    simpl; repeat split; done.
Qed.

Lemma handleMcp_allocation_witness :
  (handleMcp (main httpConfig true) (post None None false)).1 = main httpConfig true.
Proof.
  eapply (proj1 (handleMcp_allocation (main httpConfig true) (post None None false))).
  reflexivity.
Defined.

Lemma lockstep_reachable (p0 : Process) (es : list Event) (p : Process) :
  servers p0 = connectedTo <$> transports p0 → run p0 es = Some p →
  servers p = connectedTo <$> transports p.
Proof.
  intros H0. revert p. induction es as [|e es IH] using rev_ind; intros p Hrun.
  { by injection Hrun as <-. }
  apply run_snoc in Hrun as (q & Hq & Hstep). specialize (IH q Hq).
  apply step_effect in Hstep as [_ Heff].
  destruct Heff as [e p' Hc _ _|req k _ Hk Hh|tid t Ht _|tid t u Ht Hn Hh Hu].
  - rewrite (closes_servers _ _ Hc), IH.
    change connectedTo with ((λ c : option string * McpServer * bool, c.1.2) ∘ core).
    by rewrite !list_fmap_compose, (closes_cores _ _ Hc).
  - simpl. by rewrite fmap_app, IH.
  - simpl. rewrite IH. symmetry.
    rewrite (list_fmap_alter connectedTo setHandling id); [by rewrite list_alter_id|].
    by apply Forall_forall.
  - simpl. rewrite IH. symmetry.
    rewrite (list_fmap_alter connectedTo (setSessionId u) id);
      [by rewrite list_alter_id|].
    by apply Forall_forall.
Qed.

(** X19. In network mode there is one protocol server and one client handle
    for each transport ever built, and nothing else: the servers are, in
    order, the ones the transports are connected to, and the handle of the
    transport with index [i] is the [i]-th handle constructed. *)
Theorem one_server_per_transport (key : option string) (sender : string)
    (repliers : list string) (port : nat) (listenOk : bool) (es : list Event)
    (p : Process) :
  run (main (HttpConfig key sender repliers port) listenOk) es = Some p →
  servers p = connectedTo <$> transports p
  ∧ resendCount p = length (transports p)
  ∧ (∀ i t, transports p !! i = Some t →
       resendId (serverResend (connectedTo t)) = i).
Proof.
  intros Hrun.
  assert (initial (main (HttpConfig key sender repliers port) listenOk)) as H0
    by (by destruct listenOk).
  pose proof (reachable_Inv _ _ _ H0 Hrun) as HI.
  split; [|split].
  - eapply lockstep_reachable; [|exact Hrun]. by destruct listenOk.
  - apply (inv_count _ _ _ HI).
  - intros i t Ht.
    destruct (inv_origin _ _ _ HI _ _ Ht) as (req & k & _ & Hconn).
    by rewrite Hconn.
Qed.

Lemma one_server_per_transport_witness :
  servers (stateAfter twoSessions) = connectedTo <$> transports (stateAfter twoSessions)
  ∧ resendCount (stateAfter twoSessions) = length (transports (stateAfter twoSessions)).
Proof.
  destruct (one_server_per_transport None "onboarding@resend.dev" [] 3000 true
              twoSessions (stateAfter twoSessions)) as (H1 & H2 & _);
    [by vm_compute | by split].
Defined.

(** X20. Closing one session's channel leaves every other session's registry
    entry in place, as long as [randomUUID] has not returned the same id
    twice. *)
Theorem close_leaves_other_sessions (p0 : Process) (es : list Event)
    (p p' : Process) (tid tid' : nat) (sid' : string) :
  initial p0 → run p0 es = Some p → NoDup (draws es) →
  step p (ChannelClosed tid) = Some p' →
  sessions p !! sid' = Some tid' → tid' ≠ tid →
  sessions p' !! sid' = Some tid'.
Proof.
  intros H0 Hrun Hnd Hstep Hs Hne.
  pose proof (reachable_Inv _ _ _ H0 Hrun) as HI.
  pose proof (distinctIds_reachable _ _ _ H0 Hrun Hnd) as Hdist.
  destruct (inv_entry _ _ _ HI _ _ Hs) as (t' & Ht' & Hsid' & _).
  unfold step in Hstep. destruct (exited p); [done|].
  destruct (transports p !! tid) as [t|] eqn:Ht; [|done]. simpl in Hstep.
  injection Hstep as <-. unfold onclose. simpl.
  rewrite list_lookup_alter_eq, Ht. simpl.
  destruct (sessionId t) as [sid|] eqn:Hsid; [|done].
  destruct (Js.truthy sid && truthyValue (sessionsGet (sessions p) sid)); [|done].
  simpl. rewrite lookup_delete_ne; [done|]. intros ->.
  apply Hne. by apply (Hdist tid' tid t' t sid').
Qed.

Lemma close_leaves_other_sessions_witness :
  sessions (stateAfter (twoSessions ++ [ChannelClosed 0])) !! uuid2 = Some 1%nat.
Proof.
  apply (close_leaves_other_sessions (main httpConfig true) twoSessions
           (stateAfter twoSessions) _ 0 1 uuid2).
  - by vm_compute.
  - by vm_compute.
  - apply (bool_decide_unpack _). by vm_compute.
  - by vm_compute.
  - by vm_compute.
  - done.
Defined.

Lemma step_closed_stays (p p' : Process) (e : Event) (tid : nat) :
  step p e = Some p' → closedIn p tid → closedIn p' tid.
Proof.
  intros Hstep Hcl. unfold step in Hstep. destruct (exited p); [done|].
  destruct e as [req|i|i u|i|s close]; simpl in Hstep.
  - destruct (listening p); [|done]. injection Hstep as <-.
    destruct (handleMcp_state p req) as [->|(k & _ & ->)]; [done|].
    destruct Hcl as (t & Ht & Hc). exists t. split; [|done].
    by apply lookup_app_l_Some.
  - destruct (transports p !! i) as [t0|] eqn:H0; [|done]. simpl in Hstep.
    destruct (handling t0); [done|]. injection Hstep as <-.
    destruct Hcl as (t & Ht & Hc). unfold closedIn. simpl.
    destruct (decide (tid = i)) as [->|Hne].
    + exists (setHandling t). by rewrite list_lookup_alter_eq, Ht.
    + exists t. by rewrite list_lookup_alter_ne.
  - destruct (transports p !! i) as [t0|] eqn:H0; [|done]. simpl in Hstep.
    destruct (sessionId t0); [done|].
    destruct (handling t0 && isUUID u); [|done]. injection Hstep as <-.
    destruct Hcl as (t & Ht & Hc). unfold closedIn. simpl.
    destruct (decide (tid = i)) as [->|Hne].
    + exists (setSessionId u t). by rewrite list_lookup_alter_eq, Ht.
    + exists t. by rewrite list_lookup_alter_ne.
  - destruct (transports p !! i) as [t0|] eqn:H0; [|done]. simpl in Hstep.
    injection Hstep as <-. unfold closedIn. rewrite onclose_transports.
    apply closedIn_setClosed. by left.
  - injection Hstep as <-. unfold deliver.
    generalize (listenersOf s p). intros ls. revert p Hcl.
    induction ls as [|l ls IH]; intros p Hcl; simpl; [done|].
    assert (closedIn (runListener close l p) tid) as Hl.
    { destruct l; simpl; [done|]. unfold shutdown, closedIn. simpl.
      by apply closedIn_shutdownLoop. }
    destruct (exited (runListener close l p)); [done|]. by apply IH.
Qed.

(** X21. A transport, once built, is never removed, never connected to
    another server, never given another session id once it has one, and never
    reopened once closed, whatever events follow. *)
Theorem transport_is_never_rebound (es : list Event) (p p' : Process) (tid : nat)
    (t : Transport) :
  run p es = Some p' → transports p !! tid = Some t →
  ∃ t', transports p' !! tid = Some t'
        ∧ connectedTo t' = connectedTo t
        ∧ (∀ sid, sessionId t = Some sid → sessionId t' = Some sid)
        ∧ (closed t = true → closed t' = true).
Proof.
  intros Hrun Ht.
  destruct (run_transport_stable es p p' tid t Hrun Ht) as (t' & Ht' & Hc & Hs).
  exists t'. split; [done|]. split; [done|]. split; [done|].
  intros Hcl.
  assert (closedIn p' tid) as (t'' & Ht'' & Hcl'').
  { clear Ht' Hc Hs t'. assert (closedIn p tid) as Hin by (by exists t).
    clear Ht Hcl. revert p Hrun Hin.
    induction es as [|e es IH]; intros p Hrun Hin; simpl in Hrun.
    - by injection Hrun as <-.
    - destruct (step p e) as [q|] eqn:Hstep; [|done]. simpl in Hrun.
      apply (IH q Hrun). by apply (step_closed_stays p q e). }
  congruence.
Qed.

Lemma transport_is_never_rebound_witness :
  ∃ t', transports (stateAfter (createdThenClosed ++ ChannelClosed 0 :: afterClose))
          !! 0%nat = Some t'
        ∧ sessionId t' = Some uuid1 ∧ closed t' = true.
Proof.
  edestruct (transport_is_never_rebound afterClose
               (stateAfter (createdThenClosed ++ [ChannelClosed 0]))
               (stateAfter (createdThenClosed ++ ChannelClosed 0 :: afterClose)) 0)
    as (t' & Ht' & _ & Hs & Hc).
  - by vm_compute.
  - by vm_compute.
  - exists t'. split; [exact Ht'|]. split; [by apply Hs | by apply Hc].
Defined.

(** X22. Whatever the configuration and whatever happened before, a SIGINT or
    SIGTERM makes the process exit with code 0 on the spot: no channel is
    closed, no registry entry removed and the listener is not stopped,
    because the listener registered by [index.ts] runs first. *)
Theorem signal_exits_at_once (config : CliConfig) (listenOk : bool)
    (es : list Event) (p : Process) (s : SignalName) (close : nat → CloseResult) :
  run (main config listenOk) es = Some p →
  deliver s close p = processExit 0 p.
Proof.
  intros Hrun. unfold deliver, listenersOf. rewrite (run_listeners _ _ _ Hrun).
  by destruct config, listenOk, s.
Qed.

Lemma signal_exits_at_once_witness :
  deliver SIGTERM closesCleanly (stateAfter twoSessions)
  = processExit 0 (stateAfter twoSessions).
Proof.
  apply (signal_exits_at_once httpConfig true twoSessions). by vm_compute.
Defined.

(** X23. In every state the network transport can reach, the [shutdown]
    closure of [runHttp], when it is run, calls [close()] on the transport of
    every registry entry, empties the registry whether those calls throw or
    not and whether they fire [onclose] or not, stops the listener and exits
    with code 0. *)
Theorem shutdown_drains_reachable (p0 : Process) (es : list Event) (p : Process)
    (close : nat → CloseResult) :
  initial p0 → run p0 es = Some p →
  sessions (shutdown close p) = ∅
  ∧ listening (shutdown close p) = false
  ∧ exited (shutdown close p) = Some 0
  ∧ (∀ sid tid, sessions p !! sid = Some tid → closedIn (shutdown close p) tid).
Proof.
  intros H0 Hrun. apply shutdown_drains. intros sid tid Hs.
  destruct (inv_entry _ _ _ (reachable_Inv _ _ _ H0 Hrun) _ _ Hs) as (t & Ht & Hsid & _).
  by exists t.
Qed.

Lemma shutdown_drains_reachable_witness :
  sessions (shutdown (λ tid, {| firedOnclose := bool_decide (tid ≠ 0%nat);
                                threw := bool_decide (tid = 0%nat) |})
              (stateAfter twoSessions)) = ∅.
Proof.
  apply (shutdown_drains_reachable (main httpConfig true) twoSessions).
  - by vm_compute.
  - by vm_compute.
Defined.

(** X24. In every state the network transport can reach, a request whose
    session header is a property name that every object inherits (such as
    [constructor] or [toString]) is not answered 404: [sessions[sessionId]]
    is truthy, the handler takes the continuation branch and throws when it
    calls [handleRequest]; the process state is unchanged. *)
Theorem inherited_session_header_throws (p0 : Process) (es : list Event)
    (p : Process) (req : Request) (sid : string) :
  initial p0 → run p0 es = Some p →
  mcpSessionId req = Some sid → sid ∈ objectPrototypeKeys →
  handleMcp p req = (p, Thrown).
Proof.
  intros H0 Hrun Hreq Hin. apply (inherited_name_throws p req sid Hreq Hin).
  destruct (sessions p !! sid) as [tid|] eqn:Hs; [|done].
  pose proof (reachable_Inv _ _ _ H0 Hrun) as HI.
  destruct (inv_entry _ _ _ HI _ _ Hs) as (t & Ht & Hsid & _).
  destruct (inv_minted _ _ _ HI _ _ _ Ht Hsid) as [Hu _].
  by destruct (isUUID_not_inherited sid Hu).
Qed.

Lemma inherited_session_header_throws_witness :
  handleMcp (stateAfter twoSessions) (post (Some "constructor") None false)
  = (stateAfter twoSessions, Thrown).
Proof.
  apply (inherited_session_header_throws (main httpConfig true) twoSessions _ _
           "constructor").
  - by vm_compute.
  - by vm_compute.
  - done.
  - apply (bool_decide_unpack _). by vm_compute.
Defined.
